(** * Bridge_Defense: the UDP authentication-token client ([auth.py])

    A shallow embedding of the wire codec and of the send/receive exchange of
    [auth.py], followed by the properties of the protocol description that
    were checked against it.

    Python values are modelled as follows.
    - [bytes] is a list of [byte]s.
    - [str] is a list of Unicode code points ([N]); a character is ASCII when
      its code point is below 128.
    - [int] is [Z]; the [struct] module's range checks are written out.
    - an exception is a value of [exn]; [exit(n)] raises [SystemExit n].
    - the socket is the environment: a function giving, for the k-th
      send/receive round, what the channel does. *)

From Stdlib Require Import ZArith NArith String Ascii Lia Bool DecimalString List.
From Stdlib.Strings Require Import Byte.
Import ListNotations.
Open Scope Z_scope.

(** ** Values, exceptions *)

Definition bytes := list byte.
Definition str := list N.

(** A string literal of the source, as a [str]. *)
Definition lit (s : string) : str := map Byte.to_N (list_byte_of_string s).

Inductive exn : Type :=
| UnicodeEncodeError
| UnicodeDecodeError
| StructError
| SystemExit (code : Z).

Inductive result (A : Type) : Type :=
| Ok (a : A)
| Raise (e : exn).
Arguments Ok {A} a.
Arguments Raise {A} e.

Definition bind {A B} (c : result A) (k : A -> result B) : result B :=
  match c with
  | Ok a => k a
  | Raise e => Raise e
  end.

Declare Scope py_scope.
Delimit Scope py_scope with py.
Notation "x <- c1 ;; c2" := (bind c1 (fun x => c2))
  (at level 61, c1 at next level, right associativity) : py_scope.
Open Scope py_scope.

(** ** [str] and [bytes] built-ins used by the client *)

(** [s.ljust(width)]: pad on the right with spaces; a string already that
    long is returned as it is. *)
Definition ljust (s : str) (width : nat) : str :=
  if (width <=? length s)%nat then s
  else s ++ repeat 32%N (width - length s).

Definition is_ascii (c : N) : bool := (c <? 128)%N.

Definition byte_of_N (n : N) : byte :=
  match Byte.of_N n with
  | Some x => x
  | None => x00
  end.

(** [bytes(s, encoding="ascii")] *)
Definition encode_ascii (s : str) : result bytes :=
  if forallb is_ascii s then Ok (map byte_of_N s) else Raise UnicodeEncodeError.

(** [x.decode("ascii")] *)
Definition decode_ascii (x : bytes) : result str :=
  if forallb (fun c => is_ascii (Byte.to_N c)) x then Ok (map Byte.to_N x)
  else Raise UnicodeDecodeError.

(** [c.isspace()]: general category Zs, or bidirectional class WS, B or S. *)
Definition isspace (c : N) : bool :=
  ((9 <=? c) && (c <=? 13) || (28 <=? c) && (c <=? 32) ||
   (c =? 133) || (c =? 160) || (c =? 5760) ||
   (8192 <=? c) && (c <=? 8202) || (c =? 8232) || (c =? 8233) ||
   (c =? 8239) || (c =? 8287) || (c =? 12288))%N.

Fixpoint lstrip (s : str) : str :=
  match s with
  | [] => []
  | c :: s' => if isspace c then lstrip s' else s
  end.

Definition rstrip (s : str) : str := rev (lstrip (rev s)).

(** [s.strip()] *)
Definition strip (s : str) : str := rstrip (lstrip s).

(** [str(z)] for an [int], as used by f-strings. *)
Definition str_of_int (z : Z) : str := lit (NilZero.string_of_int (Z.to_int z)).

(** [sep.join(l)] *)
Fixpoint join (sep : str) (l : list str) : str :=
  match l with
  | [] => []
  | [x] => x
  | x :: l' => x ++ sep ++ join sep l'
  end.

(** [x[lo:hi]] for [0 <= lo <= hi]. *)
Definition slice {A} (x : list A) (lo hi : nat) : list A := skipn lo (firstn hi x).

(** [range(n)] *)
Definition range (n : Z) : list Z := map Z.of_nat (seq 0 (Z.to_nat n)).

(** ** The [struct] module, network byte order ([!]) *)

Module struct.

(** The format characters the client uses; [Fs count] is [<count>s]. *)
Inductive code : Type := Fh | Fi | Fb | Fs (count : Z).

Inductive value : Type := Int (z : Z) | Bytes (x : bytes).

Definition size (c : code) : nat :=
  match c with
  | Fh => 2
  | Fi => 4
  | Fb => 1
  | Fs count => Z.to_nat count
  end.

Definition calcsize (fmt : list code) : nat := list_sum (map size fmt).

(** A negative repeat count is not a format: [f"!hh{80*n}s"] with [n < 0]
    reads [!hh-80s]. *)
Definition valid_code (c : code) : bool :=
  match c with
  | Fs count => 0 <=? count
  | _ => true
  end.

Definition valid (fmt : list code) : bool := forallb valid_code fmt.

Definition byte_of_Z (z : Z) : byte := byte_of_N (Z.to_N (Z.land z 255)).

(** The [n] low-order bytes of [z] in two's complement, most significant
    first. *)
Fixpoint to_be (n : nat) (z : Z) : bytes :=
  match n with
  | O => []
  | S k => byte_of_Z (Z.shiftr z (8 * Z.of_nat k)) :: to_be k z
  end.

Definition from_be (x : bytes) : Z :=
  fold_left (fun acc c => acc * 256 + Z.of_N (Byte.to_N c)) x 0.

Definition from_be_signed (x : bytes) : Z :=
  let v := from_be x in
  let w := 8 * Z.of_nat (length x) in
  if v <? 2 ^ (w - 1) then v else v - 2 ^ w.

Definition pack_int (n : nat) (z : Z) : result bytes :=
  let w := 8 * Z.of_nat n in
  if (- 2 ^ (w - 1) <=? z) && (z <? 2 ^ (w - 1)) then Ok (to_be n z)
  else Raise StructError.

(** [<count>s]: longer values are cut, shorter ones filled with null
    bytes. *)
Definition pack_s (count : nat) (x : bytes) : bytes :=
  firstn count x ++ repeat x00 (count - length x).

Definition pack_item (c : code) (v : value) : result bytes :=
  match c, v with
  | Fh, Int z => pack_int 2 z
  | Fi, Int z => pack_int 4 z
  | Fb, Int z => pack_int 1 z
  | Fs count, Bytes x => Ok (pack_s (Z.to_nat count) x)
  | _, _ => Raise StructError
  end.

Fixpoint pack_items (fmt : list code) (vs : list value) : result bytes :=
  match fmt, vs with
  | [], [] => Ok []
  | c :: fmt', v :: vs' =>
      x <- pack_item c v ;;
      rest <- pack_items fmt' vs' ;;
      Ok (x ++ rest)
  | _, _ => Raise StructError
  end.

(** [struct.pack(fmt, *vs)] *)
Definition pack (fmt : list code) (vs : list value) : result bytes :=
  if valid fmt then pack_items fmt vs else Raise StructError.

Definition unpack_item (c : code) (x : bytes) : value :=
  match c with
  | Fs _ => Bytes x
  | _ => Int (from_be_signed x)
  end.

Fixpoint unpack_items (fmt : list code) (x : bytes) : list value :=
  match fmt with
  | [] => []
  | c :: fmt' =>
      unpack_item c (firstn (size c) x) :: unpack_items fmt' (skipn (size c) x)
  end.

(** [struct.unpack(fmt, x)]: the buffer must have exactly the size of the
    format. *)
Definition unpack (fmt : list code) (x : bytes) : result (list value) :=
  if valid fmt then
    if (length x =? calcsize fmt)%nat then Ok (unpack_items fmt x)
    else Raise StructError
  else Raise StructError.

End struct.
Import struct.

(** ** The message classes *)

(** A member of a group: the tuple [(id, nonce, token)]. *)
Definition sas : Type := str * Z * str.

Module IndividualTokenRequest.
Record t : Type := { type : Z; id : str; nonce : Z }.
Definition init (id : str) (nonce : Z) : t :=
  {| type := 1; id := id; nonce := nonce |}.
End IndividualTokenRequest.

Module IndividualTokenResponse.
Record t : Type := { type : Z; id : str; nonce : Z; token : str }.
Definition init (type : Z) (id : str) (nonce : Z) (token : str) : t :=
  {| type := type; id := id; nonce := nonce; token := token |}.

(** [f"{self.id}:{self.nonce}:{self.token}"] *)
Definition getStringSAS (self : t) : str :=
  id self ++ lit ":" ++ str_of_int (nonce self) ++ lit ":" ++ token self.
End IndividualTokenResponse.

Module IndividualTokenValidation.
Record t : Type := { type : Z; id : str; nonce : Z; token : str }.
Definition init (id : str) (nonce : Z) (token : str) : t :=
  {| type := 3; id := id; nonce := nonce; token := token |}.
End IndividualTokenValidation.

Module IndividualTokenStatus.
Record t : Type :=
  { type : Z; id : str; nonce : Z; token : str; status : Z }.
Definition init (type : Z) (id : str) (nonce : Z) (token : str) (status : Z) : t :=
  {| type := type; id := id; nonce := nonce; token := token; status := status |}.
End IndividualTokenStatus.

Module GroupTokenRequest.
Record t : Type := { type : Z; n : Z; group : list sas }.
Definition init (n : Z) (group : list sas) : t :=
  {| type := 5; n := n; group := group |}.
End GroupTokenRequest.

Module GroupTokenResponse.
Record t : Type := { type : Z; n : Z; group : list sas; token : str }.
Definition init (type n : Z) (group : list sas) (token : str) : t :=
  {| type := type; n := n; group := group; token := token |}.

(** [f"{'+'.join([f'{sas[0]}:{sas[1]}:{sas[2]}' for sas in self.group])}+{self.token}"] *)
Definition getStringGAS (self : t) : str :=
  join (lit "+")
       (map (fun m : sas =>
               let '(i, k, tk) := m in
               i ++ lit ":" ++ str_of_int k ++ lit ":" ++ tk)
            (group self))
  ++ lit "+" ++ token self.
End GroupTokenResponse.

Module GroupTokenValidation.
Record t : Type := { type : Z; n : Z; group : list sas; token : str }.
Definition init (n : Z) (group : list sas) (token : str) : t :=
  {| type := 7; n := n; group := group; token := token |}.
End GroupTokenValidation.

Module GroupTokenStatus.
Record t : Type :=
  { type : Z; n : Z; group : list sas; token : str; status : Z }.
Definition init (type n : Z) (group : list sas) (token : str) (status : Z) : t :=
  {| type := type; n := n; group := group; token := token; status := status |}.
End GroupTokenStatus.

(** ** The error-code table *)

Definition authServerErrorMsg : list str :=
  [ lit "INVALID_MESSAGE_CODE";
    lit "INCORRECT_MESSAGE_LENGTH";
    lit "INVALID_PARAMETER";
    lit "INVALID_SINGLE_TOKEN";
    lit "ASCII_DECODE_ERROR" ].

Definition getServerErrorMsg (code : Z) : str :=
  if (code >? Z.of_nat (length authServerErrorMsg)) || (code <? 1)
  then lit "UNKNOWN_ERROR_CODE"
  else nth (Z.to_nat (code - 1)) authServerErrorMsg [].

(** ** The exchange: [sendPayload] *)

(** What the channel does in one round of [sock.send] then [sock.recv]: either
    call times out, either call fails with another [OSError], or a datagram
    arrives. *)
Inductive round : Type :=
| SendTimeout
| SendOSError (msg : str)
| RecvTimeout
| RecvOSError (msg : str)
| Datagram (data : bytes).

(** The connected socket: the round number and the payload sent decide what
    happens. *)
Definition socket : Type := nat -> bytes -> round.

(** What the process has done so far: the payloads handed to [sock.send], in
    order, and the lines printed. *)
Record world : Type := { sends : list bytes; stdout : list str }.

Definition world0 : world := {| sends := []; stdout := [] |}.

Definition print (line : str) (w : world) : world :=
  {| sends := sends w; stdout := stdout w ++ [line] |}.

Definition send (payload : bytes) (w : world) : world :=
  {| sends := sends w ++ [payload]; stdout := stdout w |}.

(** The [while attempts:] loop.  It yields the value of [res] when the loop
    is left, or the exception that left the function.  [fuel] bounds the
    number of iterations of the model; [None] means it was used up. *)
Fixpoint sendPayload_loop (fuel : nat) (sock : socket) (payload : bytes)
    (bufSize : nat) (attempts : Z) (w : world) : option (world * result bytes) :=
  if attempts =? 0 then Some (w, Ok [])
  else
    match fuel with
    | O => None
    | S fuel' =>
        let w1 := send payload w in
        match sock (length (sends w)) payload with
        | Datagram data => Some (w1, Ok (firstn bufSize data))
        | SendTimeout | RecvTimeout =>
            sendPayload_loop fuel' sock payload bufSize (attempts - 1) w1
        | SendOSError msg | RecvOSError msg =>
            Some (print (lit "ERROR: Could not send and/or receive data. " ++ msg) w1,
                  Raise (SystemExit 2))
        end
    end.

(** The classification of [res] after the loop. *)
Definition sendPayload_check (res : bytes) (w : world) : world * result bytes :=
  if (length res =? 0)%nat then
    (print (lit "ERROR: No response from the server") w, Raise (SystemExit 3))
  else if (length res =? 4)%nat then
    match struct.unpack [Fh; Fh] res with
    | Ok [Int type; Int code] =>
        if type =? 256 then
          (print (lit "ERROR: Auth server returned an error. [" ++ str_of_int code
                  ++ lit "] " ++ getServerErrorMsg code) w,
           Raise (SystemExit 4))
        else (w, Ok res)
    | Ok _ => (w, Raise StructError)
    | Raise e => (w, Raise e)
    end
  else (w, Ok res).

Definition sendPayload (fuel : nat) (sock : socket) (payload : bytes)
    (bufSize : nat) (attempts : Z) (w : world) : option (world * result bytes) :=
  match sendPayload_loop fuel sock payload bufSize attempts w with
  | Some (w', Ok res) => Some (sendPayload_check res w')
  | other => other
  end.

(** The defaults of the signature: [bufSize = 4096], [attempts = 5]. *)
Definition sendPayload_default (fuel : nat) (sock : socket) (payload : bytes)
    (w : world) : option (world * result bytes) :=
  sendPayload fuel sock payload 4096 5 w.

(** A request function: build the payload, exchange it, parse the reply. *)
Definition request {A} (payload : result bytes) (parse : bytes -> result A)
    (fuel : nat) (sock : socket) (w : world) : option (world * result A) :=
  match payload with
  | Raise e => Some (w, Raise e)
  | Ok p =>
      match sendPayload_default fuel sock p w with
      | None => None
      | Some (w', Raise e) => Some (w', Raise e)
      | Some (w', Ok res) => Some (w', parse res)
      end
  end.

(** ** [sendIndividualTokenRequest] *)

Definition sendIndividualTokenRequest_payload (itr : IndividualTokenRequest.t)
  : result bytes :=
  idb <- encode_ascii (ljust (IndividualTokenRequest.id itr) 12) ;;
  struct.pack [Fh; Fs 12; Fi]
    [Int (IndividualTokenRequest.type itr); Bytes idb;
     Int (IndividualTokenRequest.nonce itr)].

Definition sendIndividualTokenRequest_parse (res : bytes)
  : result IndividualTokenResponse.t :=
  raw <- struct.unpack [Fh; Fs 12; Fi; Fs 64] res ;;
  match raw with
  | [Int r0; Bytes r1; Int r2; Bytes r3] =>
      i <- decode_ascii r1 ;;
      tk <- decode_ascii r3 ;;
      Ok (IndividualTokenResponse.init r0 (strip i) r2 tk)
  | _ => Raise StructError
  end.

Definition sendIndividualTokenRequest (fuel : nat) (sock : socket)
    (itr : IndividualTokenRequest.t) (w : world)
  : option (world * result IndividualTokenResponse.t) :=
  request (sendIndividualTokenRequest_payload itr)
          sendIndividualTokenRequest_parse fuel sock w.

(** ** [sendIndividualTokenValidation] *)

Definition sendIndividualTokenValidation_payload (itv : IndividualTokenValidation.t)
  : result bytes :=
  idb <- encode_ascii (ljust (IndividualTokenValidation.id itv) 12) ;;
  tkb <- encode_ascii (IndividualTokenValidation.token itv) ;;
  struct.pack [Fh; Fs 12; Fi; Fs 64]
    [Int (IndividualTokenValidation.type itv); Bytes idb;
     Int (IndividualTokenValidation.nonce itv); Bytes tkb].

Definition sendIndividualTokenValidation_parse (res : bytes)
  : result IndividualTokenStatus.t :=
  raw <- struct.unpack [Fh; Fs 12; Fi; Fs 64; Fb] res ;;
  match raw with
  | [Int r0; Bytes r1; Int r2; Bytes r3; Int r4] =>
      i <- decode_ascii r1 ;;
      tk <- decode_ascii r3 ;;
      Ok (IndividualTokenStatus.init r0 (strip i) r2 tk r4)
  | _ => Raise StructError
  end.

Definition sendIndividualTokenValidation (fuel : nat) (sock : socket)
    (itv : IndividualTokenValidation.t) (w : world)
  : option (world * result IndividualTokenStatus.t) :=
  request (sendIndividualTokenValidation_payload itv)
          sendIndividualTokenValidation_parse fuel sock w.

(** ** The group messages *)

(** [struct.pack("!12si64s", bytes(sas[0].ljust(12), ...), sas[1], bytes(sas[2], ...))] *)
Definition pack_sas (m : sas) : result bytes :=
  let '(i, k, tk) := m in
  idb <- encode_ascii (ljust i 12) ;;
  tkb <- encode_ascii tk ;;
  struct.pack [Fs 12; Fi; Fs 64] [Bytes idb; Int k; Bytes tkb].

(** The loop [for sas in group: sasChunk += struct.pack(...)]. *)
Fixpoint build_sasChunk (group : list sas) (sasChunk : bytes) : result bytes :=
  match group with
  | [] => Ok sasChunk
  | m :: group' =>
      x <- pack_sas m ;;
      build_sasChunk group' (sasChunk ++ x)
  end.

(** [struct.unpack("!12si64s", sas)] and the tuple appended to [group]. *)
Definition unpack_sas (x : bytes) : result sas :=
  rawSas <- struct.unpack [Fs 12; Fi; Fs 64] x ;;
  match rawSas with
  | [Bytes s0; Int s1; Bytes s2] =>
      i <- decode_ascii s0 ;;
      tk <- decode_ascii s2 ;;
      Ok (strip i, s1, tk)
  | _ => Raise StructError
  end.

(** The loop over [[raw[2][80*i : 80*(i+1)] for i in range(n)]]. *)
Fixpoint parse_group (chunks : list bytes) (group : list sas) : result (list sas) :=
  match chunks with
  | [] => Ok group
  | x :: chunks' =>
      m <- unpack_sas x ;;
      parse_group chunks' (group ++ [m])
  end.

Definition sas_chunks (raw2 : bytes) (n : Z) : list bytes :=
  map (fun i => slice raw2 (Z.to_nat (80 * i)) (Z.to_nat (80 * (i + 1)))) (range n).

Definition sendGroupTokenRequest_payload (gtr : GroupTokenRequest.t) : result bytes :=
  sasChunk <- build_sasChunk (GroupTokenRequest.group gtr) [] ;;
  struct.pack [Fh; Fh; Fs (80 * GroupTokenRequest.n gtr)]
    [Int (GroupTokenRequest.type gtr); Int (GroupTokenRequest.n gtr); Bytes sasChunk].

Definition sendGroupTokenRequest_parse (gtr : GroupTokenRequest.t) (res : bytes)
  : result GroupTokenResponse.t :=
  raw <- struct.unpack [Fh; Fh; Fs (80 * GroupTokenRequest.n gtr); Fs 64] res ;;
  match raw with
  | [Int r0; Int r1; Bytes r2; Bytes r3] =>
      group <- parse_group (sas_chunks r2 (GroupTokenRequest.n gtr)) [] ;;
      tk <- decode_ascii r3 ;;
      Ok (GroupTokenResponse.init r0 r1 group tk)
  | _ => Raise StructError
  end.

Definition sendGroupTokenRequest (fuel : nat) (sock : socket)
    (gtr : GroupTokenRequest.t) (w : world)
  : option (world * result GroupTokenResponse.t) :=
  request (sendGroupTokenRequest_payload gtr)
          (sendGroupTokenRequest_parse gtr) fuel sock w.

Definition sendGroupTokenValidation_payload (gtv : GroupTokenValidation.t)
  : result bytes :=
  sasChunk <- build_sasChunk (GroupTokenValidation.group gtv) [] ;;
  tkb <- encode_ascii (GroupTokenValidation.token gtv) ;;
  struct.pack [Fh; Fh; Fs (80 * GroupTokenValidation.n gtv); Fs 64]
    [Int (GroupTokenValidation.type gtv); Int (GroupTokenValidation.n gtv);
     Bytes sasChunk; Bytes tkb].

Definition sendGroupTokenValidation_parse (gtv : GroupTokenValidation.t) (res : bytes)
  : result GroupTokenStatus.t :=
  raw <- struct.unpack [Fh; Fh; Fs (80 * GroupTokenValidation.n gtv); Fs 64; Fb] res ;;
  match raw with
  | [Int r0; Int r1; Bytes r2; Bytes r3; Int r4] =>
      group <- parse_group (sas_chunks r2 (GroupTokenValidation.n gtv)) [] ;;
      tk <- decode_ascii r3 ;;
      Ok (GroupTokenStatus.init r0 r1 group tk r4)
  | _ => Raise StructError
  end.

Definition sendGroupTokenValidation (fuel : nat) (sock : socket)
    (gtv : GroupTokenValidation.t) (w : world)
  : option (world * result GroupTokenStatus.t) :=
  request (sendGroupTokenValidation_payload gtv)
          (sendGroupTokenValidation_parse gtv) fuel sock w.

(** ** [validateArgs] *)

(** The parsed command line, as [argparse] gives it. *)
Module Namespace.
Record t : Type := { host : str; port : Z; command : str; options : list str }.
End Namespace.

Fixpoint str_eqb (a b : str) : bool :=
  match a, b with
  | [], [] => true
  | c :: a', d :: b' => (c =? d)%N && str_eqb a' b'
  | _, _ => false
  end.

(** [validateArgs(args)]: [Some msg] when it raises [Exception(msg)], [None]
    when it returns.  A command that matches no [case] falls through. *)
Definition validateArgs (args : Namespace.t) : option str :=
  let n := length (Namespace.options args) in
  if str_eqb (Namespace.command args) (lit "itr") then
    if negb (n =? 2)%nat then Some (lit "Expected usage: itr <id> <nonce>") else None
  else if str_eqb (Namespace.command args) (lit "itv") then
    if negb (n =? 1)%nat then Some (lit "Expected usage: itv <SAS>") else None
  else if str_eqb (Namespace.command args) (lit "gtr") then
    if (n =? 1)%nat
    then Some (lit "Expected usage: gtr <N> <SAS-1> <SAS-2> ... <SAS-N>") else None
  else if str_eqb (Namespace.command args) (lit "gtv") then
    if negb (n =? 1)%nat then Some (lit "Expected usage: gtv <GAS>") else None
  else None.

(** ** [initConnection] *)

(** What the system does for one entry of [socket.getaddrinfo(...)]:
    [socket.socket] raises [OSError], [sock.connect] raises [OSError], or the
    socket is connected. *)
Inductive connection : Type :=
| CreateFails (msg : str)
| ConnectFails (msg : str)
| Connects.

(** An entry of the address list: the text of its [sa] and what happens when
    it is tried. *)
Record addrinfo : Type := { sa : str; tried : connection }.

(** The [for res in socket.getaddrinfo(...)] loop from entry number [i] on.
    A socket is named by the number of its entry.  The result is the lines
    printed, the sockets closed, and the value of [sock] after the loop. *)
Fixpoint initConnection_loop (infos : list addrinfo) (i : nat) (w : world)
    (closed : list nat) : world * list nat * option nat :=
  match infos with
  | [] => (w, closed, None)
  | res :: infos' =>
      match tried res with
      | CreateFails msg =>
          initConnection_loop infos' (S i)
            (print (lit "WARNING: Attempt at creating socket failed. " ++ msg) w)
            closed
      | ConnectFails msg =>
          initConnection_loop infos' (S i)
            (print (lit "WARNING: Attempt at connecting socket to " ++ sa res
                    ++ lit " failed. " ++ msg) w)
            (closed ++ [i])
      | Connects => (w, closed, Some i)
      end
  end.

(** [initConnection(host, port)], given the address list of the host. *)
Definition initConnection (infos : list addrinfo) (w : world)
  : world * list nat * result nat :=
  match initConnection_loop infos 0 w [] with
  | (w', closed, Some sock) => (w', closed, Ok sock)
  | (w', closed, None) =>
      (print (lit "ERROR: Could not open a valid socket") w', closed,
       Raise (SystemExit 1))
  end.

(** ** Vocabulary of the properties *)

(** Every character is ASCII. *)
Definition ascii_str (s : str) : Prop := Forall (fun c => (c < 128)%N) s.

(** Every byte is below 128. *)
Definition ascii_bytes (x : bytes) : Prop := Forall (fun c => (Byte.to_N c < 128)%N) x.

(** [strip] leaves the string as it is. *)
Definition trimmed (s : str) : Prop := strip s = s.

(** The range of the format [i]. *)
Definition int32 (z : Z) : Prop := - 2 ^ 31 <= z < 2 ^ 31.

(** The range of the format [h]. *)
Definition int16 (z : Z) : Prop := - 2 ^ 15 <= z < 2 ^ 15.

(** The reply has the error layout: four bytes, the first field 256. *)
Definition is_error_reply (res : bytes) : Prop :=
  length res = 4%nat /\ from_be (firstn 2 res) = 256.

(** The round ends in [socket.timeout]. *)
Definition timed_out (r : round) : bool :=
  match r with
  | SendTimeout | RecvTimeout => true
  | _ => false
  end.

(** The round ends in another [OSError], with this message. *)
Definition fault_of (r : round) : option str :=
  match r with
  | SendOSError msg | RecvOSError msg => Some msg
  | _ => None
  end.

(** The world after [k] more calls of [sock.send(payload)]. *)
Definition after_sends (k : nat) (payload : bytes) (w : world) : world :=
  {| sends := sends w ++ repeat payload k; stdout := stdout w |}.

(** The reply of the scenario: type 2, "alice" in a 12-byte field, nonce 42,
    "T0K3N" and 59 spaces. *)
Definition alice_reply : bytes :=
  [x00; x02] ++ list_byte_of_string "alice" ++ repeat x20 7
  ++ [x00; x00; x00; x2a] ++ list_byte_of_string "T0K3N" ++ repeat x20 59.

(** The 80 bytes written for one member. *)
Definition sas_bytes (m : sas) : bytes :=
  let '(i, k, tk) := m in
  pack_s 12 (map byte_of_N (ljust i 12)) ++ to_be 4 k ++ pack_s 64 (map byte_of_N tk).

(** The member can be packed: ASCII id and token, nonce in the range of [i]. *)
Definition encodable (m : sas) : Prop :=
  let '(i, k, tk) := m in ascii_str i /\ int32 k /\ ascii_str tk.

(** The member fits its fields: moreover a trimmed id of at most 12
    characters and a token of at most 64. *)
Definition fits (m : sas) : Prop :=
  let '(i, k, tk) := m in
  encodable m /\ (length i <= 12)%nat /\ trimmed i /\ (length tk <= 64)%nat.

(** The member as it is read back: the token filled with null characters up
    to 64. *)
Definition null_padded (m : sas) : sas :=
  let '(i, k, tk) := m in (i, k, tk ++ repeat 0%N (64 - length tk)).

(** The success reply that matches a request payload: type 6, then the group
    size and the member chunks of the request, then the group token. *)
Definition success_reply (payload token : bytes) : bytes :=
  [x00; x06] ++ skipn 2 payload ++ token.

(** The [len] bytes of the buffer from offset [lo]. *)
Definition field (x : bytes) (lo len : nat) : bytes := firstn len (skipn lo x).

(** What the decoders can give for a member: a trimmed id, a nonce that four
    bytes can carry, a token of exactly 64 ASCII characters. *)
Definition decoded_member (m : sas) : Prop :=
  let '(i, k, tk) := m in
  trimmed i /\ int32 k /\ length tk = 64%nat /\ ascii_str tk.

(** The reply that carries back the fields of a request payload: the type
    [t], then the payload without its own type, then what the reply adds. *)
Definition echo_reply (t : Z) (payload tail : bytes) : bytes :=
  to_be 2 t ++ skipn 2 payload ++ tail.

(** The text of one member in a GAS. *)
Definition sas_string (m : sas) : str :=
  let '(i, k, tk) := m in i ++ lit ":" ++ str_of_int k ++ lit ":" ++ tk.

(** The warning printed for an entry that fails. *)
Definition warning (res : addrinfo) : str :=
  match tried res with
  | CreateFails msg => lit "WARNING: Attempt at creating socket failed. " ++ msg
  | ConnectFails msg =>
      lit "WARNING: Attempt at connecting socket to " ++ sa res ++ lit " failed. " ++ msg
  | Connects => []
  end.

(** The entry does not give a connected socket. *)
Definition fails (res : addrinfo) : Prop := tried res <> Connects.

(** The numbers, from [i] on, of the entries whose socket was created and
    could not be connected. *)
Fixpoint unconnected (infos : list addrinfo) (i : nat) : list nat :=
  match infos with
  | [] => []
  | res :: infos' =>
      match tried res with
      | ConnectFails _ => i :: unconnected infos' (S i)
      | _ => unconnected infos' (S i)
      end
  end.

(** How a run of the loop can end. *)
Inductive loop_end (sock : socket) (payload : bytes) (bufSize : nat) (attempts : Z)
  (w : world) (k : nat) : world * result bytes -> Prop :=
| EndExhausted :
    attempts = Z.of_nat k ->
    loop_end sock payload bufSize attempts w k (after_sends k payload w, Ok [])
| EndDatagram (data : bytes) :
    attempts < 0 \/ Z.of_nat k < attempts ->
    sock (length (sends w) + k)%nat payload = Datagram data ->
    loop_end sock payload bufSize attempts w k
             (after_sends (S k) payload w, Ok (firstn bufSize data))
| EndFault (msg : str) :
    attempts < 0 \/ Z.of_nat k < attempts ->
    fault_of (sock (length (sends w) + k)%nat payload) = Some msg ->
    loop_end sock payload bufSize attempts w k
             (print (lit "ERROR: Could not send and/or receive data. " ++ msg)
                    (after_sends (S k) payload w),
              Raise (SystemExit 2)).

(** The 80 bytes of a member with the padding written out: the id and spaces
    up to 12 bytes, the nonce, the token and null bytes up to 64 bytes. *)
Definition padded_member (m : sas) : bytes :=
  let '(i, k, tk) := m in
  (map byte_of_N i ++ repeat x20 (12 - length i)) ++ to_be 4 k
  ++ (map byte_of_N tk ++ repeat x00 (64 - length tk)).

(** The member can be packed and is not longer than its fields. *)
Definition within_fields (m : sas) : Prop :=
  let '(i, k, tk) := m in
  encodable m /\ (length i <= 12)%nat /\ (length tk <= 64)%nat.

(** * Properties *)

(** ** The error-code table and the error reply *)

Lemma from_be_two (a b : byte) :
  from_be [a; b] = Z.of_N (Byte.to_N a) * 256 + Z.of_N (Byte.to_N b).
Proof. unfold from_be; simpl; lia. Qed.

Lemma byte_range (a : byte) : 0 <= Z.of_N (Byte.to_N a) <= 255.
Proof. pose proof (Byte.to_N_bounded a); lia. Qed.

(** The signed reading of a 16-bit field is 256 exactly when the unsigned one
    is. *)
Lemma signed_256_iff (x : bytes) :
  length x = 2%nat -> (from_be_signed x = 256 <-> from_be x = 256).
Proof.
  destruct x as [|a [|b [|c x]]]; try discriminate. intros _.
  unfold from_be_signed. rewrite from_be_two.
  pose proof (byte_range a). pose proof (byte_range b).
  change (2 ^ (8 * Z.of_nat (length [a; b]) - 1)) with 32768.
  change (2 ^ (8 * Z.of_nat (length [a; b]))) with 65536.
  destruct (Z.ltb_spec (Z.of_N (Byte.to_N a) * 256 + Z.of_N (Byte.to_N b)) 32768); lia.
Qed.

Lemma sendPayload_check_four (a b c d : byte) (w : world) :
  sendPayload_check [a; b; c; d] w =
  if from_be_signed [a; b] =? 256 then
    (print (lit "ERROR: Auth server returned an error. ["
            ++ str_of_int (from_be_signed [c; d]) ++ lit "] "
            ++ getServerErrorMsg (from_be_signed [c; d])) w,
     Raise (SystemExit 4))
  else (w, Ok [a; b; c; d]).
Proof. reflexivity. Qed.

Lemma sendPayload_check_other (res : bytes) (w : world) :
  length res <> 0%nat -> length res <> 4%nat -> sendPayload_check res w = (w, Ok res).
Proof.
  intros H0 H4. unfold sendPayload_check.
  destruct (Nat.eqb_spec (length res) 0); [contradiction|].
  destruct (Nat.eqb_spec (length res) 4); [contradiction|]. reflexivity.
Qed.

Lemma sendPayload_check_exit4_iff (res : bytes) (w : world) :
  snd (sendPayload_check res w) = Raise (SystemExit 4) <-> is_error_reply res.
Proof.
  unfold is_error_reply.
  destruct res as [|a [|b [|c [|d [|e res]]]]];
    try (split; [discriminate | intros [H _]; discriminate H]).
  rewrite sendPayload_check_four. simpl firstn.
  rewrite <- (signed_256_iff [a; b] eq_refl).
  destruct (Z.eqb_spec (from_be_signed [a; b]) 256); simpl; split; intros; auto;
    try discriminate; try tauto.
Qed.

(** C8: the table gives the five messages for the codes 1 to 5 and
    UNKNOWN_ERROR_CODE for every other integer; the reply 01 00 00 03 ends the
    exchange with exit code 4 and the message INVALID_PARAMETER. *)
Theorem getServerErrorMsg_table :
  (forall code : Z,
      getServerErrorMsg code =
      match code with
      | 1 => lit "INVALID_MESSAGE_CODE"
      | 2 => lit "INCORRECT_MESSAGE_LENGTH"
      | 3 => lit "INVALID_PARAMETER"
      | 4 => lit "INVALID_SINGLE_TOKEN"
      | 5 => lit "ASCII_DECODE_ERROR"
      | _ => lit "UNKNOWN_ERROR_CODE"
      end) /\
  (forall w : world,
      sendPayload_check [x01; x00; x00; x03] w =
      (print (lit "ERROR: Auth server returned an error. [3] INVALID_PARAMETER") w,
       Raise (SystemExit 4))).
Proof.
  split; [|reflexivity].
  intros code. unfold getServerErrorMsg.
  change (Z.of_nat (length authServerErrorMsg)) with 5.
  destruct (Z.gtb_spec code 5) as [Hhi|Hhi]; simpl orb.
  - destruct code as [|p|p]; try lia.
    destruct p as [[[p|p|]|[p|p|]|]|[[p|p|]|[p|p|]|]|]; try lia; reflexivity.
  - destruct (Z.ltb_spec code 1) as [Hlo|Hlo].
    + destruct code as [|p|p]; try lia; reflexivity.
    + assert (H : code = 1 \/ code = 2 \/ code = 3 \/ code = 4 \/ code = 5) by lia.
      destruct H as [->|[->|[->|[->| ->]]]]; reflexivity.
Qed.

(** The error layout gives the protocol error with its printed line: the
    code read from the last two bytes and the message of the table. *)
Lemma sendPayload_check_error (res : bytes) (w : world) :
  is_error_reply res ->
  sendPayload_check res w =
  (print (lit "ERROR: Auth server returned an error. ["
          ++ str_of_int (from_be_signed (skipn 2 res)) ++ lit "] "
          ++ getServerErrorMsg (from_be_signed (skipn 2 res))) w,
   Raise (SystemExit 4)).
Proof.
  intros [Hlen H256].
  destruct res as [|a [|b [|c [|d [|e res]]]]]; try discriminate Hlen.
  rewrite sendPayload_check_four. simpl firstn in H256.
  apply (signed_256_iff [a; b] eq_refl) in H256. rewrite H256. reflexivity.
Qed.

(** C1, as amended: the reply check raises the protocol error exactly on the
    error layout, and then it exits with code 4 after printing the line that
    carries the code of the reply and its message from the table; every other
    reply that is not empty is returned unchanged to the caller, which
    decodes it, and nothing is printed; the empty reply ends the exchange
    with the no-response exit instead. *)
Theorem error_reply_classification (res : bytes) (w : world) :
  (snd (sendPayload_check res w) = Raise (SystemExit 4) <-> is_error_reply res) /\
  (is_error_reply res ->
   sendPayload_check res w =
   (print (lit "ERROR: Auth server returned an error. ["
           ++ str_of_int (from_be_signed (skipn 2 res)) ++ lit "] "
           ++ getServerErrorMsg (from_be_signed (skipn 2 res))) w,
    Raise (SystemExit 4))) /\
  (res <> [] -> ~ is_error_reply res -> sendPayload_check res w = (w, Ok res)) /\
  (res = [] ->
   sendPayload_check res w =
   (print (lit "ERROR: No response from the server") w, Raise (SystemExit 3))).
Proof.
  split; [apply sendPayload_check_exit4_iff|].
  split; [apply sendPayload_check_error|]. split.
  - intros Hne Hnot.
    destruct (Nat.eq_dec (length res) 4) as [H4|H4].
    + destruct res as [|a [|b [|c [|d [|e res]]]]]; try discriminate H4.
      rewrite sendPayload_check_four.
      destruct (Z.eqb_spec (from_be_signed [a; b]) 256) as [E|E]; [|reflexivity].
      exfalso. apply Hnot. split; [reflexivity|].
      apply (signed_256_iff [a; b] eq_refl). exact E.
    + apply sendPayload_check_other; [|exact H4].
      destruct res; [contradiction|discriminate].
  - intros ->. reflexivity.
Qed.

Lemma error_reply_classification_witness :
  sendPayload_check [x01; x00; xff; xfb] world0 =
  ({| sends := [];
      stdout := [lit "ERROR: Auth server returned an error. [-5] UNKNOWN_ERROR_CODE"] |},
   Raise (SystemExit 4)) /\
  sendPayload_check [x00; x02; x00; x03] world0 = (world0, Ok [x00; x02; x00; x03]) /\
  sendPayload_check [] world0 =
  ({| sends := []; stdout := [lit "ERROR: No response from the server"] |},
   Raise (SystemExit 3)).
Proof.
  split; [|split].
  - apply (proj1 (proj2 (error_reply_classification [x01; x00; xff; xfb] world0))).
    split; reflexivity.
  - apply (proj1 (proj2 (proj2 (error_reply_classification [x00; x02; x00; x03] world0)))).
    + discriminate.
    + intros [_ H]. vm_compute in H. discriminate H.
  - apply (proj2 (proj2 (proj2 (error_reply_classification [] world0)))). reflexivity.
Defined.

(** C1 as worded fails on the empty reply: it does not have the error layout,
    yet it is not handed on. *)
Lemma error_reply_passthrough_counterexample :
  ~ is_error_reply [] /\ sendPayload_check [] world0 <> (world0, Ok []).
Proof.
  split.
  - intros [H _]. discriminate H.
  - vm_compute. discriminate.
Qed.

(** ** The retry loop *)

Section Exchange.

Variables (sock : socket) (payload : bytes) (bufSize : nat).

(** [k] rounds that time out take [k] iterations, send [k] times and use up
    [k] attempts. *)
Lemma sendPayload_loop_timeouts (k : nat) :
  forall (fuel : nat) (attempts : Z) (w : world),
    (forall j, (j < k)%nat ->
               timed_out (sock (length (sends w) + j)%nat payload) = true) ->
    attempts < 0 \/ Z.of_nat k <= attempts ->
    sendPayload_loop (k + fuel) sock payload bufSize attempts w =
    sendPayload_loop fuel sock payload bufSize (attempts - Z.of_nat k)
                     (after_sends k payload w).
Proof.
  induction k as [|k IH]; intros fuel attempts w Hto Hatt.
  - destruct w as [s o]. unfold after_sends. simpl.
    rewrite app_nil_r, Z.sub_0_r. reflexivity.
  - assert (E : (attempts =? 0) = false) by (apply Z.eqb_neq; lia).
    change (S k + fuel)%nat with (S (k + fuel)).
    simpl sendPayload_loop. rewrite E.
    pose proof (Hto 0%nat ltac:(lia)) as H0. rewrite Nat.add_0_r in H0.
    assert (Hnext :
      sendPayload_loop (k + fuel) sock payload bufSize (attempts - 1) (send payload w)
      = sendPayload_loop fuel sock payload bufSize (attempts - Z.of_nat (S k))
                         (after_sends (S k) payload w)).
    { rewrite IH.
      - f_equal; [lia|]. unfold after_sends, send. simpl.
        rewrite <- app_assoc. reflexivity.
      - intros j Hj. simpl. rewrite length_app. simpl.
        replace (length (sends w) + 1 + j)%nat with (length (sends w) + S j)%nat by lia.
        apply Hto. lia.
      - lia. }
    destruct (sock (length (sends w)) payload); try discriminate H0; exact Hnext.
Qed.

(** The run in which every round times out. *)
Lemma sendPayload_all_timeouts (fuel : nat) (attempts : Z) (w : world) :
  0 <= attempts ->
  (forall j, (j < Z.to_nat attempts)%nat ->
             timed_out (sock (length (sends w) + j)%nat payload) = true) ->
  (Z.to_nat attempts <= fuel)%nat ->
  sendPayload fuel sock payload bufSize attempts w =
  Some (print (lit "ERROR: No response from the server")
              (after_sends (Z.to_nat attempts) payload w),
        Raise (SystemExit 3)).
Proof.
  intros Hpos Hto Hfuel. unfold sendPayload.
  replace fuel with (Z.to_nat attempts + (fuel - Z.to_nat attempts))%nat by lia.
  rewrite sendPayload_loop_timeouts by (auto; lia).
  replace (attempts - Z.of_nat (Z.to_nat attempts)) with 0 by lia.
  destruct (fuel - Z.to_nat attempts)%nat; reflexivity.
Qed.

(** The run that reaches round [k] after [k] timeouts. *)
Lemma sendPayload_loop_round (k fuel : nat) (attempts : Z) (w : world) :
  (forall j, (j < k)%nat ->
             timed_out (sock (length (sends w) + j)%nat payload) = true) ->
  attempts < 0 \/ Z.of_nat k < attempts ->
  (k < fuel)%nat ->
  sendPayload_loop fuel sock payload bufSize attempts w =
  match sock (length (sends w) + k)%nat payload with
  | Datagram data =>
      Some (after_sends (S k) payload w, Ok (firstn bufSize data))
  | SendTimeout | RecvTimeout =>
      sendPayload_loop (fuel - S k) sock payload bufSize (attempts - Z.of_nat (S k))
                       (after_sends (S k) payload w)
  | SendOSError msg | RecvOSError msg =>
      Some (print (lit "ERROR: Could not send and/or receive data. " ++ msg)
                  (after_sends (S k) payload w),
            Raise (SystemExit 2))
  end.
Proof.
  intros Hto Hatt Hfuel.
  replace fuel with (k + S (fuel - S k))%nat at 1 by lia.
  rewrite sendPayload_loop_timeouts by (auto; lia).
  assert (E : (attempts - Z.of_nat k =? 0) = false) by (apply Z.eqb_neq; lia).
  simpl sendPayload_loop. rewrite E.
  assert (Hlen : length (sends w ++ repeat payload k) = (length (sends w) + k)%nat)
    by (rewrite length_app, repeat_length; reflexivity).
  rewrite Hlen.
  assert (Hw : send payload (after_sends k payload w) = after_sends (S k) payload w).
  { unfold send, after_sends. simpl. rewrite <- app_assoc.
    replace (repeat payload k ++ [payload]) with (repeat payload (S k)); [reflexivity|].
    clear. induction k; simpl; [reflexivity|]. rewrite <- IHk. reflexivity. }
  rewrite Hw.
  replace (attempts - Z.of_nat k - 1) with (attempts - Z.of_nat (S k)) by lia.
  destruct (sock (length (sends w) + k)%nat payload); reflexivity.
Qed.

End Exchange.

(** C6: when every round times out, the request is sent exactly [attempts]
    times (5 with the default), the exchange ends with the no-response exit
    (code 3), and the channel-fault exit (code 2) is not taken. *)
Theorem all_timeouts_exhaust_attempts
    (sock : socket) (payload : bytes) (bufSize fuel : nat) (attempts : Z) (w : world) :
  0 <= attempts ->
  (forall j, timed_out (sock j payload) = true) ->
  (Z.to_nat attempts <= fuel)%nat ->
  exists w',
    sendPayload fuel sock payload bufSize attempts w = Some (w', Raise (SystemExit 3)) /\
    sends w' = sends w ++ repeat payload (Z.to_nat attempts) /\
    stdout w' = stdout w ++ [lit "ERROR: No response from the server"] /\
    sendPayload fuel sock payload bufSize attempts w <> Some (w', Raise (SystemExit 2)) /\
    (attempts = 5 ->
     sendPayload_default fuel sock payload w = Some (w', Raise (SystemExit 3)) /\
     sends w' = sends w ++ [payload; payload; payload; payload; payload]).
Proof.
  intros Hpos Hto Hfuel.
  pose proof (sendPayload_all_timeouts sock payload bufSize fuel attempts w Hpos
                (fun j _ => Hto _) Hfuel) as Hrun.
  eexists. split; [exact Hrun|]. repeat split.
  - rewrite Hrun. intros H. discriminate H.
  - subst attempts.
    apply (sendPayload_all_timeouts sock payload 4096 fuel 5 w); auto.
  - subst attempts. reflexivity.
Qed.

Lemma all_timeouts_exhaust_attempts_witness :
  exists w',
    sendPayload 5 (fun _ _ => RecvTimeout) [x01] 4096 5 world0
    = Some (w', Raise (SystemExit 3)) /\
    sends w' = [[x01]; [x01]; [x01]; [x01]; [x01]].
Proof.
  destruct (all_timeouts_exhaust_attempts (fun _ _ => RecvTimeout) [x01] 4096 5 5 world0)
    as [w' [H1 [H2 _]]].
  - lia.
  - reflexivity.
  - simpl; lia.
  - exists w'. split; [exact H1 | exact H2].
Defined.

(** C7: a fault other than a timeout in round [k], after [k] timeouts, ends
    the exchange at once with the channel-fault exit (code 2): the request
    has been sent [k + 1] times and is not sent again, however many attempts
    are left. *)
Theorem channel_fault_aborts
    (sock : socket) (payload : bytes) (bufSize fuel k : nat) (attempts : Z)
    (w : world) (msg : str) :
  (forall j, (j < k)%nat -> timed_out (sock (length (sends w) + j)%nat payload) = true) ->
  fault_of (sock (length (sends w) + k)%nat payload) = Some msg ->
  attempts < 0 \/ Z.of_nat k < attempts ->
  (k < fuel)%nat ->
  sendPayload fuel sock payload bufSize attempts w =
  Some ({| sends := sends w ++ repeat payload (S k);
           stdout := stdout w ++ [lit "ERROR: Could not send and/or receive data. " ++ msg] |},
        Raise (SystemExit 2)).
Proof.
  intros Hto Hfault Hatt Hfuel. unfold sendPayload.
  rewrite (sendPayload_loop_round sock payload bufSize k fuel attempts w Hto Hatt Hfuel).
  destruct (sock (length (sends w) + k)%nat payload); simpl in Hfault;
    try discriminate Hfault; injection Hfault as ->; reflexivity.
Qed.

Lemma channel_fault_aborts_witness :
  sendPayload 9 (fun j _ => if (j <? 2)%nat then RecvTimeout else SendOSError (lit "down"))
              [x01] 4096 5 world0 =
  Some ({| sends := [[x01]; [x01]; [x01]];
           stdout := [lit "ERROR: Could not send and/or receive data. down"] |},
        Raise (SystemExit 2)).
Proof.
  apply (channel_fault_aborts
           (fun j _ => if (j <? 2)%nat then RecvTimeout else SendOSError (lit "down"))
           [x01] 4096 9 2 5 world0 (lit "down")).
  - intros j Hj. simpl. destruct (Nat.ltb_spec j 2); [reflexivity|lia].
  - reflexivity.
  - right; lia.
  - lia.
Defined.

(** C9: an empty datagram received in round [k], after [k] timeouts, ends the
    exchange exactly as the run without any reply does: exit code 3 and the
    same printed line. *)
Theorem empty_datagram_is_no_response
    (sock : socket) (payload : bytes) (bufSize fuel k : nat) (attempts : Z) (w : world) :
  (forall j, (j < k)%nat -> timed_out (sock (length (sends w) + j)%nat payload) = true) ->
  sock (length (sends w) + k)%nat payload = Datagram [] ->
  attempts < 0 \/ Z.of_nat k < attempts ->
  (k < fuel)%nat ->
  exists w',
    sendPayload fuel sock payload bufSize attempts w = Some (w', Raise (SystemExit 3)) /\
    stdout w' = stdout w ++ [lit "ERROR: No response from the server"] /\
    forall (quiet : socket) (attempts' : Z) (fuel' : nat),
      0 <= attempts' ->
      (forall j, timed_out (quiet j payload) = true) ->
      (Z.to_nat attempts' <= fuel')%nat ->
      exists w'',
        sendPayload fuel' quiet payload bufSize attempts' w
        = Some (w'', Raise (SystemExit 3)) /\
        stdout w'' = stdout w'.
Proof.
  intros Hto Hrecv Hatt Hfuel.
  exists (print (lit "ERROR: No response from the server") (after_sends (S k) payload w)).
  split; [|split; [reflexivity|]].
  - unfold sendPayload.
    rewrite (sendPayload_loop_round sock payload bufSize k fuel attempts w Hto Hatt Hfuel).
    rewrite Hrecv. rewrite firstn_nil. reflexivity.
  - intros quiet attempts' fuel' Hpos Hq Hf.
    eexists. split.
    + apply sendPayload_all_timeouts; auto.
    + reflexivity.
Qed.

Lemma empty_datagram_is_no_response_witness :
  exists w',
    sendPayload 9 (fun j _ => if (j <? 2)%nat then RecvTimeout else Datagram [])
                [x01] 4096 5 world0
    = Some (w', Raise (SystemExit 3)) /\
    stdout w' = [lit "ERROR: No response from the server"].
Proof.
  destruct (empty_datagram_is_no_response
              (fun j _ => if (j <? 2)%nat then RecvTimeout else Datagram [])
              [x01] 4096 9 2 5 world0) as [w' [H1 [H2 _]]].
  - intros j Hj. simpl. destruct (Nat.ltb_spec j 2); [reflexivity|lia].
  - reflexivity.
  - right; lia.
  - lia.
  - exists w'. split; [exact H1 | exact H2].
Defined.

(** ** Facts about the built-ins *)

Lemma forallb_is_ascii (s : str) : forallb is_ascii s = true <-> ascii_str s.
Proof.
  unfold ascii_str. rewrite forallb_forall, Forall_forall.
  split; intros H c Hc; specialize (H c Hc); unfold is_ascii in *;
    [apply N.ltb_lt|apply N.ltb_lt]; exact H.
Qed.

Lemma forallb_is_ascii_bytes (x : bytes) :
  forallb (fun c => is_ascii (Byte.to_N c)) x = true <-> ascii_bytes x.
Proof.
  unfold ascii_bytes. rewrite forallb_forall, Forall_forall.
  split; intros H c Hc; specialize (H c Hc); unfold is_ascii in *;
    [apply N.ltb_lt|apply N.ltb_lt]; exact H.
Qed.

Lemma to_N_byte_of_N (n : N) : (n < 256)%N -> Byte.to_N (byte_of_N n) = n.
Proof.
  intros Hn. unfold byte_of_N.
  destruct (Byte.of_N n) as [x|] eqn:E.
  - apply Byte.to_of_N. exact E.
  - apply Byte.of_N_None_iff in E. lia.
Qed.

Lemma encode_ascii_ok (s : str) : ascii_str s -> encode_ascii s = Ok (map byte_of_N s).
Proof.
  intros H. unfold encode_ascii.
  rewrite (proj2 (forallb_is_ascii s) H). reflexivity.
Qed.

Lemma encode_ascii_fails (s : str) :
  (exists c, In c s /\ (128 <= c)%N) -> encode_ascii s = Raise UnicodeEncodeError.
Proof.
  intros [c [Hin Hc]]. unfold encode_ascii.
  destruct (forallb is_ascii s) eqn:E; [|reflexivity].
  rewrite forallb_forall in E. specialize (E c Hin).
  unfold is_ascii in E. apply N.ltb_lt in E. lia.
Qed.

Lemma ascii_bytes_encoded (s : str) : ascii_str s -> ascii_bytes (map byte_of_N s).
Proof.
  unfold ascii_str, ascii_bytes. intros H. rewrite Forall_map.
  eapply Forall_impl; [|exact H]. cbv beta. intros c Hc.
  rewrite to_N_byte_of_N; lia.
Qed.

Lemma map_to_N_byte_of_N (s : str) : ascii_str s -> map Byte.to_N (map byte_of_N s) = s.
Proof.
  unfold ascii_str. induction 1 as [|c s Hc Hs IH]; simpl; [reflexivity|].
  rewrite IH, to_N_byte_of_N by lia. reflexivity.
Qed.

Lemma decode_ascii_ok (x : bytes) : ascii_bytes x -> decode_ascii x = Ok (map Byte.to_N x).
Proof.
  intros H. unfold decode_ascii.
  rewrite (proj2 (forallb_is_ascii_bytes x) H). reflexivity.
Qed.

Lemma ascii_str_ljust (s : str) (width : nat) : ascii_str s -> ascii_str (ljust s width).
Proof.
  intros H. unfold ljust. destruct (width <=? length s)%nat; [exact H|].
  apply Forall_app. split; [exact H|].
  apply Forall_forall. intros c Hc. apply repeat_spec in Hc. subst c. reflexivity.
Qed.

Lemma ljust_short (s : str) (width : nat) :
  (length s <= width)%nat -> ljust s width = s ++ repeat 32%N (width - length s).
Proof.
  intros H. unfold ljust. destruct (Nat.leb_spec width (length s)); [|reflexivity].
  replace (width - length s)%nat with 0%nat by lia. simpl. rewrite app_nil_r. reflexivity.
Qed.

Lemma ljust_long (s : str) (width : nat) : (width <= length s)%nat -> ljust s width = s.
Proof.
  intros H. unfold ljust. destruct (Nat.leb_spec width (length s)); [reflexivity|lia].
Qed.

Lemma length_ljust (s : str) (width : nat) :
  (length s <= width)%nat -> length (ljust s width) = width.
Proof.
  intros H. rewrite ljust_short by exact H. rewrite length_app, repeat_length. lia.
Qed.

(** *** [strip] *)

Lemma lstrip_spaces (k : nat) (s : str) : lstrip (repeat 32%N k ++ s) = lstrip s.
Proof. induction k; simpl; auto. Qed.

Lemma length_lstrip (s : str) : (length (lstrip s) <= length s)%nat.
Proof.
  induction s as [|c s IH]; simpl; [lia|].
  destruct (isspace c); simpl; lia.
Qed.

Lemma lstrip_same_length (s : str) : length (lstrip s) = length s -> lstrip s = s.
Proof.
  destruct s as [|c s]; simpl; [reflexivity|].
  destruct (isspace c); [|reflexivity].
  pose proof (length_lstrip s). lia.
Qed.

Lemma length_rstrip (s : str) : (length (rstrip s) <= length s)%nat.
Proof.
  unfold rstrip. rewrite length_rev.
  pose proof (length_lstrip (rev s)) as H. rewrite length_rev in H. exact H.
Qed.

Lemma trimmed_lstrip (s : str) : trimmed s -> lstrip s = s.
Proof.
  unfold trimmed, strip. intros H. apply lstrip_same_length.
  pose proof (length_lstrip s). pose proof (length_rstrip (lstrip s)) as Hr.
  rewrite H in Hr. lia.
Qed.

Lemma trimmed_rstrip (s : str) : trimmed s -> rstrip s = s.
Proof.
  intros H. pose proof (trimmed_lstrip s H) as Hl.
  unfold trimmed, strip in H. rewrite Hl in H. exact H.
Qed.

(** Stripping undoes the padding of [ljust] on a trimmed string. *)
Lemma strip_padded (s : str) (k : nat) : trimmed s -> strip (s ++ repeat 32%N k) = s.
Proof.
  intros H. pose proof (trimmed_lstrip s H) as Hl. pose proof (trimmed_rstrip s H) as Hr.
  unfold strip.
  assert (E : lstrip (s ++ repeat 32%N k) = s ++ repeat 32%N k \/ s = []).
  { destruct s as [|c s]; [right; reflexivity|left].
    simpl in *. destruct (isspace c); [|reflexivity].
    exfalso. pose proof (length_lstrip s) as Hlen. rewrite Hl in Hlen. simpl in Hlen. lia. }
  destruct E as [E| ->].
  - rewrite E. unfold rstrip. rewrite rev_app_distr, rev_repeat, lstrip_spaces.
    exact Hr.
  - simpl. rewrite <- (app_nil_r (repeat 32%N k)), lstrip_spaces. reflexivity.
Qed.

(** *** Big-endian integers *)

Lemma length_to_be (n : nat) (z : Z) : length (to_be n z) = n.
Proof. induction n; simpl; auto. Qed.

Lemma to_N_byte_of_Z (z : Z) : Z.of_N (Byte.to_N (byte_of_Z z)) = z mod 256.
Proof.
  unfold byte_of_Z.
  change 255 with (Z.ones 8). rewrite Z.land_ones by lia.
  change (2 ^ 8) with 256.
  pose proof (Z.mod_pos_bound z 256 ltac:(lia)).
  rewrite to_N_byte_of_N by lia. lia.
Qed.

Lemma fold_be_acc (x : bytes) (acc : Z) :
  fold_left (fun a c => a * 256 + Z.of_N (Byte.to_N c)) x acc =
  acc * 256 ^ Z.of_nat (length x) + from_be x.
Proof.
  unfold from_be. revert acc.
  induction x as [|d x IH]; intros acc.
  - simpl. lia.
  - simpl fold_left. rewrite (IH (acc * 256 + Z.of_N (Byte.to_N d))).
    rewrite (IH (Z.of_N (Byte.to_N d))).
    change (length (d :: x)) with (S (length x)).
    rewrite Nat2Z.inj_succ, Z.pow_succ_r by lia. lia.
Qed.

Lemma from_be_cons (c : byte) (x : bytes) :
  from_be (c :: x) = Z.of_N (Byte.to_N c) * 256 ^ Z.of_nat (length x) + from_be x.
Proof.
  unfold from_be at 1. simpl fold_left. rewrite fold_be_acc. reflexivity.
Qed.

Lemma from_be_to_be (n : nat) (z : Z) : from_be (to_be n z) = z mod 2 ^ (8 * Z.of_nat n).
Proof.
  induction n as [|n IH].
  - simpl. rewrite Z.mod_1_r. reflexivity.
  - change (to_be (S n) z) with (byte_of_Z (Z.shiftr z (8 * Z.of_nat n)) :: to_be n z).
    rewrite from_be_cons, length_to_be, IH, to_N_byte_of_Z.
    rewrite Z.shiftr_div_pow2 by lia.
    replace (8 * Z.of_nat (S n)) with (8 * Z.of_nat n + 8) by lia.
    rewrite Z.pow_add_r by lia. change (2 ^ 8) with 256.
    replace (256 ^ Z.of_nat n) with (2 ^ (8 * Z.of_nat n))
      by (rewrite Z.pow_mul_r by lia; reflexivity).
    rewrite Z.rem_mul_r by lia. lia.
Qed.

Lemma from_be_signed_to_be (n : nat) (z : Z) :
  (0 < n)%nat ->
  - 2 ^ (8 * Z.of_nat n - 1) <= z < 2 ^ (8 * Z.of_nat n - 1) ->
  from_be_signed (to_be n z) = z.
Proof.
  intros Hn Hz. unfold from_be_signed. cbv zeta.
  rewrite from_be_to_be, length_to_be.
  set (w := 8 * Z.of_nat n) in *.
  assert (Hw : 2 ^ w = 2 * 2 ^ (w - 1)).
  { replace w with (Z.succ (w - 1)) at 1 by lia. apply Z.pow_succ_r. lia. }
  assert (Hp : 0 < 2 ^ (w - 1)) by (apply Z.pow_pos_nonneg; lia).
  destruct (Z.lt_ge_cases z 0) as [Hneg|Hnn].
  - assert (E : z mod 2 ^ w = z + 2 ^ w).
    { symmetry. apply (Z.mod_unique z (2 ^ w) (-1)); lia. }
    rewrite E. destruct (Z.ltb_spec (z + 2 ^ w) (2 ^ (w - 1))); lia.
  - rewrite Z.mod_small by lia.
    destruct (Z.ltb_spec z (2 ^ (w - 1))); lia.
Qed.

Lemma pack_int_ok (n : nat) (z : Z) :
  - 2 ^ (8 * Z.of_nat n - 1) <= z < 2 ^ (8 * Z.of_nat n - 1) ->
  pack_int n z = Ok (to_be n z).
Proof.
  intros Hz. unfold pack_int. cbv zeta.
  destruct (Z.leb_spec (- 2 ^ (8 * Z.of_nat n - 1)) z); [|lia].
  destruct (Z.ltb_spec z (2 ^ (8 * Z.of_nat n - 1))); [reflexivity|lia].
Qed.

Lemma pack_i_ok (z : Z) : int32 z -> pack_int 4 z = Ok (to_be 4 z).
Proof. intros H. apply pack_int_ok. exact H. Qed.

Lemma pack_h_ok (z : Z) : int16 z -> pack_int 2 z = Ok (to_be 2 z).
Proof. intros H. apply pack_int_ok. exact H. Qed.

Lemma unpack_i_pack (z : Z) : int32 z -> from_be_signed (to_be 4 z) = z.
Proof. intros H. apply from_be_signed_to_be; [lia|exact H]. Qed.

Lemma unpack_h_pack (z : Z) : int16 z -> from_be_signed (to_be 2 z) = z.
Proof. intros H. apply from_be_signed_to_be; [lia|exact H]. Qed.

(** *** The format [<count>s] *)

Lemma pack_s_exact (count : nat) (x : bytes) : length x = count -> pack_s count x = x.
Proof.
  intros H. unfold pack_s. rewrite firstn_all2 by lia.
  replace (count - length x)%nat with 0%nat by lia. apply app_nil_r.
Qed.

Lemma pack_s_short (count : nat) (x : bytes) :
  (length x <= count)%nat -> pack_s count x = x ++ repeat x00 (count - length x).
Proof. intros H. unfold pack_s. rewrite firstn_all2 by lia. reflexivity. Qed.

Lemma pack_s_long (count : nat) (x : bytes) :
  (count <= length x)%nat -> pack_s count x = firstn count x.
Proof.
  intros H. unfold pack_s.
  replace (count - length x)%nat with 0%nat by lia. apply app_nil_r.
Qed.

Lemma length_pack_s (count : nat) (x : bytes) : length (pack_s count x) = count.
Proof.
  unfold pack_s. rewrite length_app, length_firstn, repeat_length. lia.
Qed.

(** *** Packing and unpacking the fixed layouts *)

Lemma pack_sas_layout (idb tkb : bytes) (k : Z) :
  int32 k ->
  struct.pack [Fs 12; Fi; Fs 64] [Bytes idb; Int k; Bytes tkb] =
  Ok (pack_s 12 idb ++ to_be 4 k ++ pack_s 64 tkb).
Proof.
  intros Hk. unfold pack. change (valid [Fs 12; Fi; Fs 64]) with true.
  cbv [pack_items pack_item bind]. rewrite pack_i_ok by exact Hk.
  rewrite app_nil_r. reflexivity.
Qed.

Lemma pack_itr_layout (t k : Z) (idb : bytes) :
  int16 t -> int32 k ->
  struct.pack [Fh; Fs 12; Fi] [Int t; Bytes idb; Int k] =
  Ok (to_be 2 t ++ pack_s 12 idb ++ to_be 4 k).
Proof.
  intros Ht Hk. unfold pack. change (valid [Fh; Fs 12; Fi]) with true.
  cbv [pack_items pack_item bind]. rewrite pack_h_ok, pack_i_ok by assumption.
  rewrite app_nil_r. reflexivity.
Qed.

Lemma pack_itv_layout (t k : Z) (idb tkb : bytes) :
  int16 t -> int32 k ->
  struct.pack [Fh; Fs 12; Fi; Fs 64] [Int t; Bytes idb; Int k; Bytes tkb] =
  Ok (to_be 2 t ++ pack_s 12 idb ++ to_be 4 k ++ pack_s 64 tkb).
Proof.
  intros Ht Hk. unfold pack. change (valid [Fh; Fs 12; Fi; Fs 64]) with true.
  cbv [pack_items pack_item bind]. rewrite pack_h_ok, pack_i_ok by assumption.
  rewrite app_nil_r. reflexivity.
Qed.

Lemma int16_small (z : Z) : 0 <= z <= 32767 -> int16 z.
Proof. unfold int16. change (2 ^ 15) with 32768. lia. Qed.

(** The individual request of an ASCII id: the id is padded by [ljust] and cut
    by [12s]. *)
Lemma itr_payload_ascii (id : str) (nonce : Z) :
  ascii_str id -> int32 nonce ->
  sendIndividualTokenRequest_payload (IndividualTokenRequest.init id nonce) =
  Ok ([x00; x01] ++ pack_s 12 (map byte_of_N (ljust id 12)) ++ to_be 4 nonce).
Proof.
  intros Hid Hn. unfold sendIndividualTokenRequest_payload. simpl.
  rewrite encode_ascii_ok by (apply ascii_str_ljust; exact Hid).
  cbv [bind]. rewrite pack_itr_layout; [reflexivity|apply int16_small; lia|exact Hn].
Qed.

Lemma itv_payload_ascii (id token : str) (nonce : Z) :
  ascii_str id -> ascii_str token -> int32 nonce ->
  sendIndividualTokenValidation_payload (IndividualTokenValidation.init id nonce token) =
  Ok ([x00; x03] ++ pack_s 12 (map byte_of_N (ljust id 12)) ++ to_be 4 nonce
      ++ pack_s 64 (map byte_of_N token)).
Proof.
  intros Hid Htk Hn. unfold sendIndividualTokenValidation_payload. simpl.
  rewrite encode_ascii_ok by (apply ascii_str_ljust; exact Hid).
  rewrite encode_ascii_ok by exact Htk.
  cbv [bind]. rewrite pack_itv_layout; [reflexivity|apply int16_small; lia|exact Hn].
Qed.

Lemma pack_s_ljust (id : str) :
  (length id <= 12)%nat ->
  pack_s 12 (map byte_of_N (ljust id 12)) =
  map byte_of_N id ++ repeat x20 (12 - length id).
Proof.
  intros H. rewrite pack_s_exact by (rewrite length_map; apply length_ljust; exact H).
  rewrite ljust_short by exact H. rewrite map_app, map_repeat. reflexivity.
Qed.

Lemma pack_s_ljust_long (id : str) :
  (12 <= length id)%nat ->
  pack_s 12 (map byte_of_N (ljust id 12)) = map byte_of_N (firstn 12 id).
Proof.
  intros H. rewrite ljust_long by exact H.
  rewrite pack_s_long by (rewrite length_map; exact H).
  apply firstn_map.
Qed.

(** ** The individual request *)

(** C4, as amended: the encoding raises when the id has a character that is
    not ASCII; an ASCII id longer than 12 characters does not raise: its
    first 12 characters are sent, in an 18-byte payload. *)
Theorem individual_request_encoding (id : str) (nonce : Z) :
  ((exists c, In c id /\ (128 <= c)%N) ->
   sendIndividualTokenRequest_payload (IndividualTokenRequest.init id nonce)
   = Raise UnicodeEncodeError /\
   forall (fuel : nat) (sock : socket) (w : world),
     sendIndividualTokenRequest fuel sock (IndividualTokenRequest.init id nonce) w
     = Some (w, Raise UnicodeEncodeError)) /\
  (ascii_str id -> (12 < length id)%nat -> int32 nonce ->
   sendIndividualTokenRequest_payload (IndividualTokenRequest.init id nonce)
   = Ok ([x00; x01] ++ map byte_of_N (firstn 12 id) ++ to_be 4 nonce) /\
   length ([x00; x01] ++ map byte_of_N (firstn 12 id) ++ to_be 4 nonce) = 18%nat).
Proof.
  split.
  - intros [c [Hin Hc]].
    assert (E : sendIndividualTokenRequest_payload (IndividualTokenRequest.init id nonce)
                = Raise UnicodeEncodeError).
    { unfold sendIndividualTokenRequest_payload. simpl.
      rewrite encode_ascii_fails; [reflexivity|].
      exists c. split; [|exact Hc]. unfold ljust.
      destruct (12 <=? length id)%nat; [exact Hin|]. apply in_or_app. left. exact Hin. }
    split; [exact E|].
    intros fuel sock w. unfold sendIndividualTokenRequest, request. rewrite E. reflexivity.
  - intros Hid Hlen Hn. split.
    + rewrite itr_payload_ascii by assumption.
      rewrite pack_s_ljust_long by lia. reflexivity.
    + rewrite !length_app, length_map, length_firstn, length_to_be.
      rewrite Nat.min_l by lia. reflexivity.
Qed.

Lemma individual_request_encoding_witness :
  sendIndividualTokenRequest_payload (IndividualTokenRequest.init [233%N] 42)
  = Raise UnicodeEncodeError /\
  sendIndividualTokenRequest_payload
    (IndividualTokenRequest.init (lit "abcdefghijklmnop") 42)
  = Ok ([x00; x01] ++ list_byte_of_string "abcdefghijkl" ++ [x00; x00; x00; x2a]).
Proof.
  split.
  - destruct (proj1 (individual_request_encoding [233%N] 42)) as [E _]; [|exact E].
    exists 233%N. split; [left; reflexivity|discriminate].
  - apply (proj2 (individual_request_encoding (lit "abcdefghijklmnop") 42)).
    + repeat constructor.
    + simpl; lia.
    + unfold int32; lia.
Defined.

(** C4 as worded fails on an ASCII id of 16 characters: a payload is
    produced. *)
Lemma long_id_counterexample :
  (12 < length (lit "abcdefghijklmnop"))%nat /\
  sendIndividualTokenRequest_payload
    (IndividualTokenRequest.init (lit "abcdefghijklmnop") 42)
  = Ok ([x00; x01] ++ list_byte_of_string "abcdefghijkl" ++ [x00; x00; x00; x2a]).
Proof. split; [simpl; lia | reflexivity]. Qed.

(** C5, as amended: the request for "alice" with nonce 42 is the 18 bytes
    [00 01], "alice" and 7 spaces, [00 00 00 2a]; the 82-byte reply decodes to
    the id "alice", the nonce 42 and the token with its 59 spaces, so its SAS
    string is "alice:42:T0K3N" followed by 59 spaces. *)
Theorem alice_scenario :
  sendIndividualTokenRequest_payload (IndividualTokenRequest.init (lit "alice") 42)
  = Ok ([x00; x01] ++ list_byte_of_string "alice" ++ repeat x20 7
        ++ [x00; x00; x00; x2a]) /\
  length ([x00; x01] ++ list_byte_of_string "alice" ++ repeat x20 7
          ++ [x00; x00; x00; x2a]) = 18%nat /\
  length alice_reply = 82%nat /\
  sendIndividualTokenRequest_parse alice_reply
  = Ok (IndividualTokenResponse.init 2 (lit "alice") 42 (lit "T0K3N" ++ repeat 32%N 59)) /\
  IndividualTokenResponse.getStringSAS
    (IndividualTokenResponse.init 2 (lit "alice") 42 (lit "T0K3N" ++ repeat 32%N 59))
  = lit "alice:42:T0K3N" ++ repeat 32%N 59.
Proof. repeat split; vm_compute; reflexivity. Qed.

(** C5 as worded fails: the SAS string of the decoded reply is not
    "alice:42:T0K3N". *)
Lemma alice_sas_counterexample :
  exists r,
    sendIndividualTokenRequest_parse alice_reply = Ok r /\
    IndividualTokenResponse.getStringSAS r <> lit "alice:42:T0K3N".
Proof.
  eexists. split; [vm_compute; reflexivity|]. vm_compute. discriminate.
Qed.

Lemma firstn_exact {A} (x rest : list A) (n : nat) :
  length x = n -> firstn n (x ++ rest) = x.
Proof.
  intros <-. rewrite firstn_app, Nat.sub_diag, firstn_all. simpl. apply app_nil_r.
Qed.

Lemma skipn_exact {A} (x rest : list A) (n : nat) :
  length x = n -> skipn n (x ++ rest) = rest.
Proof.
  intros <-. rewrite skipn_app, Nat.sub_diag, skipn_all. reflexivity.
Qed.

Lemma unpack_items_field (c : code) (fmt : list code) (x rest : bytes) :
  length x = size c ->
  unpack_items (c :: fmt) (x ++ rest) = unpack_item c x :: unpack_items fmt rest.
Proof.
  intros H. simpl. rewrite firstn_exact, skipn_exact by exact H. reflexivity.
Qed.

Lemma unpack_items_last (c : code) (x : bytes) :
  length x = size c -> unpack_items [c] x = [unpack_item c x].
Proof.
  intros H. rewrite <- (app_nil_r x) at 1. rewrite unpack_items_field by exact H.
  reflexivity.
Qed.

(** Split the buffer field by field, each field having the size of its
    format character. *)
Ltac unpack_fields :=
  repeat (rewrite unpack_items_field by (assumption || apply length_to_be));
  rewrite unpack_items_last by (assumption || apply length_to_be);
  reflexivity.

Lemma unpack_sas_layout (idf tkf : bytes) (k : Z) :
  length idf = 12%nat -> length tkf = 64%nat ->
  struct.unpack [Fs 12; Fi; Fs 64] (idf ++ to_be 4 k ++ tkf) =
  Ok [Bytes idf; Int (from_be_signed (to_be 4 k)); Bytes tkf].
Proof.
  intros Hi Ht. unfold unpack. change (valid [Fs 12; Fi; Fs 64]) with true.
  change (calcsize [Fs 12; Fi; Fs 64]) with 80%nat.
  rewrite !length_app, length_to_be, Hi, Ht. simpl Nat.eqb. cbv iota.
  unpack_fields.
Qed.

Lemma unpack_itres_layout (t k : Z) (idf tkf : bytes) :
  length idf = 12%nat -> length tkf = 64%nat ->
  struct.unpack [Fh; Fs 12; Fi; Fs 64] (to_be 2 t ++ idf ++ to_be 4 k ++ tkf) =
  Ok [Int (from_be_signed (to_be 2 t)); Bytes idf;
      Int (from_be_signed (to_be 4 k)); Bytes tkf].
Proof.
  intros Hi Ht. unfold unpack. change (valid [Fh; Fs 12; Fi; Fs 64]) with true.
  change (calcsize [Fh; Fs 12; Fi; Fs 64]) with 82%nat.
  rewrite !length_app, !length_to_be, Hi, Ht. simpl Nat.eqb. cbv iota.
  unpack_fields.
Qed.

Lemma unpack_its_layout (t k st : Z) (idf tkf : bytes) :
  length idf = 12%nat -> length tkf = 64%nat ->
  struct.unpack [Fh; Fs 12; Fi; Fs 64; Fb]
    (to_be 2 t ++ idf ++ to_be 4 k ++ tkf ++ to_be 1 st) =
  Ok [Int (from_be_signed (to_be 2 t)); Bytes idf;
      Int (from_be_signed (to_be 4 k)); Bytes tkf;
      Int (from_be_signed (to_be 1 st))].
Proof.
  intros Hi Ht. unfold unpack. change (valid [Fh; Fs 12; Fi; Fs 64; Fb]) with true.
  change (calcsize [Fh; Fs 12; Fi; Fs 64; Fb]) with 83%nat.
  rewrite !length_app, !length_to_be, Hi, Ht. simpl Nat.eqb. cbv iota.
  unpack_fields.
Qed.

(** The reply to an individual request, field by field: the id is stripped,
    the token is taken as it is. *)
Lemma itr_parse_fields (t k : Z) (idf tkf : bytes) :
  int16 t -> int32 k ->
  length idf = 12%nat -> length tkf = 64%nat ->
  ascii_bytes idf -> ascii_bytes tkf ->
  sendIndividualTokenRequest_parse (to_be 2 t ++ idf ++ to_be 4 k ++ tkf) =
  Ok (IndividualTokenResponse.init t (strip (map Byte.to_N idf)) k (map Byte.to_N tkf)).
Proof.
  intros Ht Hk Hi Htk Hai Hat. unfold sendIndividualTokenRequest_parse.
  rewrite unpack_itres_layout by assumption. cbv [bind].
  rewrite !decode_ascii_ok by assumption.
  rewrite unpack_h_pack, unpack_i_pack by assumption. reflexivity.
Qed.

Lemma itv_parse_fields (t k st : Z) (idf tkf : bytes) :
  int16 t -> int32 k -> - 128 <= st < 128 ->
  length idf = 12%nat -> length tkf = 64%nat ->
  ascii_bytes idf -> ascii_bytes tkf ->
  sendIndividualTokenValidation_parse
    (to_be 2 t ++ idf ++ to_be 4 k ++ tkf ++ to_be 1 st) =
  Ok (IndividualTokenStatus.init t (strip (map Byte.to_N idf)) k (map Byte.to_N tkf) st).
Proof.
  intros Ht Hk Hst Hi Htk Hai Hat. unfold sendIndividualTokenValidation_parse.
  rewrite unpack_its_layout by assumption. cbv [bind].
  rewrite !decode_ascii_ok by assumption.
  rewrite unpack_h_pack, unpack_i_pack by assumption.
  rewrite (from_be_signed_to_be 1 st) by (try lia; exact Hst). reflexivity.
Qed.

(** The id field written by the encoders reads back as the id. *)
Lemma id_field_roundtrip (id : str) :
  ascii_str id -> (length id <= 12)%nat -> trimmed id ->
  strip (map Byte.to_N (map byte_of_N id ++ repeat x20 (12 - length id))) = id.
Proof.
  intros Ha Hl Ht. rewrite map_app, map_repeat, map_to_N_byte_of_N by exact Ha.
  apply strip_padded. exact Ht.
Qed.

(** C2 as worded fails for tokens: the token "abc" is not sent followed by
    spaces, and the token of the reply of the scenario keeps its spaces. *)
Lemma token_padding_counterexample :
  sendIndividualTokenValidation_payload
    (IndividualTokenValidation.init (lit "bob") 7 (lit "abc"))
  <> Ok ([x00; x03] ++ (list_byte_of_string "bob" ++ repeat x20 9)
         ++ [x00; x00; x00; x07] ++ (list_byte_of_string "abc" ++ repeat x20 61)) /\
  sendIndividualTokenRequest_parse alice_reply
  <> Ok (IndividualTokenResponse.init 2 (lit "alice") 42 (lit "T0K3N")).
Proof. split; vm_compute; discriminate. Qed.

(** ** The group request *)

Lemma length_sas_bytes (m : sas) : length (sas_bytes m) = 80%nat.
Proof.
  destruct m as [[i k] tk]. unfold sas_bytes.
  rewrite !length_app, !length_pack_s, length_to_be. reflexivity.
Qed.

Lemma length_concat_sas_bytes (group : list sas) :
  length (concat (map sas_bytes group)) = (80 * length group)%nat.
Proof.
  induction group as [|m group IH]; [reflexivity|].
  cbn [map concat]. rewrite length_app, length_sas_bytes, IH. simpl length. lia.
Qed.

Lemma pack_sas_ok (m : sas) : encodable m -> pack_sas m = Ok (sas_bytes m).
Proof.
  destruct m as [[i k] tk]. intros [Hi [Hk Ht]]. unfold pack_sas.
  rewrite encode_ascii_ok by (apply ascii_str_ljust; exact Hi).
  rewrite encode_ascii_ok by exact Ht. cbv [bind].
  apply pack_sas_layout. exact Hk.
Qed.

Lemma build_sasChunk_ok (group : list sas) :
  Forall encodable group ->
  forall sasChunk,
    build_sasChunk group sasChunk = Ok (sasChunk ++ concat (map sas_bytes group)).
Proof.
  induction 1 as [|m group Hm Hg IH]; intros sasChunk.
  - simpl. rewrite app_nil_r. reflexivity.
  - cbn [build_sasChunk]. rewrite pack_sas_ok by exact Hm. cbv [bind].
    rewrite IH. cbn [map concat]. rewrite app_assoc. reflexivity.
Qed.

Lemma pack_gtr_layout (t n : Z) (sasChunk : bytes) :
  int16 t -> 0 <= n -> int16 n ->
  struct.pack [Fh; Fh; Fs (80 * n)] [Int t; Int n; Bytes sasChunk] =
  Ok (to_be 2 t ++ to_be 2 n ++ pack_s (Z.to_nat (80 * n)) sasChunk).
Proof.
  intros Ht Hn0 Hn. unfold pack.
  assert (E : valid [Fh; Fh; Fs (80 * n)] = true).
  { cbv [valid forallb valid_code andb]. destruct (Z.leb_spec 0 (80 * n)); [reflexivity|lia]. }
  rewrite E. cbv [pack_items pack_item bind].
  rewrite !pack_h_ok by assumption. rewrite app_nil_r. reflexivity.
Qed.

Lemma gtr_payload_ok (n : Z) (group : list sas) :
  0 <= n <= 32767 -> Forall encodable group ->
  sendGroupTokenRequest_payload (GroupTokenRequest.init n group) =
  Ok ([x00; x05] ++ to_be 2 n
      ++ pack_s (Z.to_nat (80 * n)) (concat (map sas_bytes group))).
Proof.
  intros Hn Hg. unfold sendGroupTokenRequest_payload, GroupTokenRequest.init.
  cbn [GroupTokenRequest.group GroupTokenRequest.n GroupTokenRequest.type].
  rewrite build_sasChunk_ok by exact Hg. cbv [bind]. cbn [app].
  rewrite pack_gtr_layout; [reflexivity|apply int16_small; lia|lia|apply int16_small; lia].
Qed.

(** C10, as amended: a member list of any length is packed without an error for a
    declared size [n] (a size the format [h] can carry, members that can be
    packed): the member bytes are cut to [80 * n] bytes when the list is
    longer than [n] and filled with null bytes when it is shorter, and the
    payload has [4 + 80 * n] bytes. *)
Theorem group_size_mismatch_is_silent (n : Z) (group : list sas) :
  0 <= n <= 32767 ->
  Forall encodable group ->
  exists sasChunk payload : bytes,
    build_sasChunk group [] = Ok sasChunk /\
    length sasChunk = (80 * length group)%nat /\
    sendGroupTokenRequest_payload (GroupTokenRequest.init n group) = Ok payload /\
    length payload = (4 + 80 * Z.to_nat n)%nat /\
    (n <= Z.of_nat (length group) ->
     payload = [x00; x05] ++ to_be 2 n ++ firstn (80 * Z.to_nat n) sasChunk) /\
    (Z.of_nat (length group) <= n ->
     payload = [x00; x05] ++ to_be 2 n ++ sasChunk
               ++ repeat x00 (80 * Z.to_nat n - 80 * length group)).
Proof.
  intros Hn Hg.
  exists (concat (map sas_bytes group)).
  eexists. split; [apply (build_sasChunk_ok group Hg [])|].
  split; [apply length_concat_sas_bytes|].
  split; [apply gtr_payload_ok; assumption|].
  replace (Z.to_nat (80 * n)) with (80 * Z.to_nat n)%nat by lia.
  split; [|split].
  - rewrite !length_app, length_to_be, length_pack_s. simpl length. lia.
  - intros Hlong. rewrite pack_s_long; [reflexivity|].
    rewrite length_concat_sas_bytes. lia.
  - intros Hshort. rewrite pack_s_short by (rewrite length_concat_sas_bytes; lia).
    rewrite length_concat_sas_bytes. reflexivity.
Qed.

Lemma group_size_mismatch_is_silent_witness :
  exists sasChunk payload : bytes,
    build_sasChunk [(lit "bob", 1, lit "tokA"); (lit "carl", 2, lit "tokB")] []
    = Ok sasChunk /\
    sendGroupTokenRequest_payload
      (GroupTokenRequest.init 1 [(lit "bob", 1, lit "tokA"); (lit "carl", 2, lit "tokB")])
    = Ok payload /\
    length payload = 84%nat /\
    payload = [x00; x05] ++ to_be 2 1 ++ firstn 80 sasChunk.
Proof.
  destruct (group_size_mismatch_is_silent 1
              [(lit "bob", 1, lit "tokA"); (lit "carl", 2, lit "tokB")])
    as [sasChunk [payload [H1 [_ [H3 [H4 [H5 _]]]]]]].
  - lia.
  - repeat (apply Forall_cons || apply Forall_nil);
      (split; [|split]); try (unfold int32; lia); repeat constructor.
  - exists sasChunk, payload. repeat split; auto. apply H5. simpl; lia.
Defined.

(** C10 as worded fails when a member cannot be packed, even one beyond the
    declared size: with [n = 1] and a second member whose nonce is [2 ^ 31]
    the encoding raises. *)
Lemma group_mismatch_counterexample :
  length [(lit "bob", 1, lit "tokA"); (lit "carl", 2 ^ 31, lit "tokB")] <> 1%nat /\
  sendGroupTokenRequest_payload
    (GroupTokenRequest.init 1 [(lit "bob", 1, lit "tokA"); (lit "carl", 2 ^ 31, lit "tokB")])
  = Raise StructError.
Proof. split; [discriminate | reflexivity]. Qed.

Lemma ascii_bytes_pack_s (count : nat) (x : bytes) :
  ascii_bytes x -> ascii_bytes (pack_s count x).
Proof.
  intros H. unfold pack_s, ascii_bytes. apply Forall_app. split.
  - apply Forall_forall. intros c Hc.
    apply (proj1 (Forall_forall _ x) H). revert Hc. clear.
    revert x. induction count as [|count IH]; intros [|d x] Hc; simpl in Hc;
      try contradiction.
    destruct Hc as [->|Hc]; [left; reflexivity|right; apply IH; exact Hc].
  - apply Forall_forall. intros c Hc. apply repeat_spec in Hc. subst c. reflexivity.
Qed.

(** What [unpack_sas] reads from the bytes written for a member that fits. *)
Lemma unpack_sas_bytes (m : sas) : fits m -> unpack_sas (sas_bytes m) = Ok (null_padded m).
Proof.
  destruct m as [[i k] tk]. intros [[Hi [Hk Ht]] [Hli [Htr Hlt]]].
  unfold unpack_sas, sas_bytes.
  rewrite unpack_sas_layout by apply length_pack_s. cbv [bind].
  rewrite !decode_ascii_ok
    by (apply ascii_bytes_pack_s, ascii_bytes_encoded;
        try apply ascii_str_ljust; assumption).
  rewrite unpack_i_pack by exact Hk.
  rewrite pack_s_ljust by exact Hli. rewrite id_field_roundtrip by assumption.
  rewrite pack_s_short by (rewrite length_map; exact Hlt).
  rewrite map_app, map_repeat, map_to_N_byte_of_N, length_map by exact Ht.
  reflexivity.
Qed.

Lemma parse_group_ok (group : list sas) :
  Forall fits group ->
  forall acc, parse_group (map sas_bytes group) acc = Ok (acc ++ map null_padded group).
Proof.
  induction 1 as [|m group Hm Hg IH]; intros acc.
  - simpl. rewrite app_nil_r. reflexivity.
  - cbn [map parse_group]. rewrite unpack_sas_bytes by exact Hm. cbv [bind].
    rewrite IH, <- app_assoc. reflexivity.
Qed.

(** Cutting the concatenation of 80-byte chunks every 80 bytes gives the
    chunks back. *)
Lemma slices_of_concat (cs : list bytes) :
  Forall (fun c => length c = 80%nat) cs ->
  forall (pre : bytes) (k : nat),
    length pre = (80 * k)%nat ->
    map (fun j => slice (pre ++ concat cs) (80 * j) (80 * j + 80)) (seq k (length cs)) = cs.
Proof.
  induction 1 as [|c cs Hc Hcs IH]; intros pre k Hpre; [reflexivity|].
  cbn [length seq map concat]. f_equal.
  - unfold slice. rewrite <- Hpre.
    rewrite firstn_app_2, (firstn_exact c (concat cs) 80 Hc).
    apply skipn_exact. reflexivity.
  - rewrite app_assoc. apply IH. rewrite length_app, Hpre, Hc. lia.
Qed.

Lemma sas_chunks_concat (cs : list bytes) :
  Forall (fun c => length c = 80%nat) cs ->
  sas_chunks (concat cs) (Z.of_nat (length cs)) = cs.
Proof.
  intros H. unfold sas_chunks, range. rewrite Nat2Z.id, map_map.
  transitivity
    (map (fun j => slice ([] ++ concat cs) (80 * j) (80 * j + 80)) (seq 0 (length cs))).
  - apply map_ext. intros j. cbn [app]. f_equal; lia.
  - apply slices_of_concat; [exact H|reflexivity].
Qed.

Lemma unpack_gtres_layout (t n : Z) (chunk tkf : bytes) :
  0 <= n -> length chunk = Z.to_nat (80 * n) -> length tkf = 64%nat ->
  struct.unpack [Fh; Fh; Fs (80 * n); Fs 64] (to_be 2 t ++ to_be 2 n ++ chunk ++ tkf) =
  Ok [Int (from_be_signed (to_be 2 t)); Int (from_be_signed (to_be 2 n));
      Bytes chunk; Bytes tkf].
Proof.
  intros Hn Hc Ht. unfold unpack.
  assert (E : valid [Fh; Fh; Fs (80 * n); Fs 64] = true).
  { cbv [valid forallb valid_code andb]. destruct (Z.leb_spec 0 (80 * n)); [reflexivity|lia]. }
  rewrite E.
  assert (L : (length (to_be 2 t ++ to_be 2 n ++ chunk ++ tkf)
               =? calcsize [Fh; Fh; Fs (80 * n); Fs 64])%nat = true).
  { apply Nat.eqb_eq. rewrite !length_app, !length_to_be, Hc, Ht.
    cbv [calcsize map size list_sum fold_right]. lia. }
  rewrite L.
  unpack_fields.
Qed.

(** The round trip of a group whose members fit and whose size is declared
    right. *)
Lemma group_roundtrip (group : list sas) (token : bytes) :
  Z.of_nat (length group) <= 32767 ->
  Forall fits group ->
  length token = 64%nat -> ascii_bytes token ->
  let gtr := GroupTokenRequest.init (Z.of_nat (length group)) group in
  exists payload,
    sendGroupTokenRequest_payload gtr = Ok payload /\
    length payload = (4 + 80 * length group)%nat /\
    sendGroupTokenRequest_parse gtr (success_reply payload token) =
    Ok (GroupTokenResponse.init 6 (Z.of_nat (length group))
                                (map null_padded group) (map Byte.to_N token)).
Proof.
  intros Hn Hg Ht Ha gtr. subst gtr.
  set (n := Z.of_nat (length group)) in *.
  assert (Henc : Forall encodable group).
  { eapply Forall_impl; [|exact Hg]. intros [[i k] tk] H. apply H. }
  assert (Hlen : length (concat (map sas_bytes group)) = Z.to_nat (80 * n))
    by (rewrite length_concat_sas_bytes; lia).
  eexists. split; [apply gtr_payload_ok; [lia|exact Henc]|].
  rewrite pack_s_exact by exact Hlen. split.
  - rewrite !length_app, length_to_be, length_concat_sas_bytes. simpl length. lia.
  - unfold success_reply, sendGroupTokenRequest_parse, GroupTokenRequest.init.
    cbn [GroupTokenRequest.group GroupTokenRequest.n GroupTokenRequest.type].
    change (skipn 2 ([x00; x05] ++ to_be 2 n ++ concat (map sas_bytes group)))
      with (to_be 2 n ++ concat (map sas_bytes group)).
    change [x00; x06] with (to_be 2 6). rewrite <- !app_assoc.
    rewrite unpack_gtres_layout by (try lia; assumption). cbv [bind].
    rewrite !unpack_h_pack by (apply int16_small; lia).
    replace n with (Z.of_nat (length (map sas_bytes group))) at 1
      by (rewrite length_map; reflexivity).
    rewrite sas_chunks_concat
      by (apply Forall_forall; intros c Hc; apply in_map_iff in Hc;
          destruct Hc as [m [<- _]]; apply length_sas_bytes).
    rewrite (parse_group_ok group Hg []). cbn [app].
    rewrite decode_ascii_ok by exact Ha. reflexivity.
Qed.

Lemma null_padded_full (group : list sas) :
  Forall (fun m : sas => length (snd m) = 64%nat) group ->
  map null_padded group = group.
Proof.
  induction 1 as [|[[i k] tk] group Hm Hg IH]; [reflexivity|].
  cbn [map null_padded]. simpl in Hm. rewrite IH, Hm, Nat.sub_diag. simpl.
  rewrite app_nil_r. reflexivity.
Qed.

(** * Further properties of the exchange *)

Lemma after_sends_zero (payload : bytes) (w : world) : after_sends 0 payload w = w.
Proof. destruct w. unfold after_sends. simpl. rewrite app_nil_r. reflexivity. Qed.

Lemma after_sends_send (k : nat) (payload : bytes) (w : world) :
  after_sends k payload (send payload w) = after_sends (S k) payload w.
Proof. unfold after_sends, send. simpl. rewrite <- app_assoc. reflexivity. Qed.

Section ExchangeRuns.

Variables (sock : socket) (payload : bytes) (bufSize : nat).

(** Every run that ends has gone through some number [k] of rounds that timed
    out and then ended in one of the three ways. *)
Lemma sendPayload_loop_inv (fuel : nat) :
  forall (attempts : Z) (w : world) (out : world * result bytes),
    sendPayload_loop fuel sock payload bufSize attempts w = Some out ->
    exists k : nat,
      (k <= fuel)%nat /\
      (forall j, (j < k)%nat ->
                 timed_out (sock (length (sends w) + j)%nat payload) = true) /\
      loop_end sock payload bufSize attempts w k out.
Proof.
  induction fuel as [|fuel IH]; intros attempts w out Hrun.
  - simpl in Hrun. destruct (Z.eqb_spec attempts 0) as [E|E]; [|discriminate Hrun].
    injection Hrun as <-. exists 0%nat. split; [lia|]. split; [intros j Hj; lia|].
    rewrite <- (after_sends_zero payload w) at 2. apply EndExhausted. exact E.
  - simpl in Hrun. destruct (Z.eqb_spec attempts 0) as [E|E].
    + injection Hrun as <-. exists 0%nat. split; [lia|]. split; [intros j Hj; lia|].
      rewrite <- (after_sends_zero payload w) at 2. apply EndExhausted. exact E.
    + destruct (sock (length (sends w)) payload) as [|msg| |msg|data] eqn:Hr.
      1, 3:
        (apply IH in Hrun; destruct Hrun as [k [Hk [Hto Hend]]];
         exists (S k); split; [lia|]; split;
         [ intros [|j] Hj;
           [ rewrite Nat.add_0_r, Hr; reflexivity
           | specialize (Hto j ltac:(lia)); simpl in Hto; rewrite length_app in Hto;
             simpl in Hto;
             replace (length (sends w) + S j)%nat with (length (sends w) + 1 + j)%nat
               by lia; exact Hto ]
         | assert (Hidx : (length (sends (send payload w)) + k
                           = length (sends w) + S k)%nat)
             by (simpl; rewrite length_app; simpl; lia);
           inversion Hend as [Ha|data Ha Hd|msg Ha Hf]; subst out;
           rewrite ?after_sends_send;
           [ apply EndExhausted; lia
           | apply EndDatagram; [lia|rewrite <- Hidx; exact Hd]
           | apply EndFault; [lia|rewrite <- Hidx; exact Hf] ] ]).
      * injection Hrun as <-. exists 0%nat. split; [lia|]. split; [intros j Hj; lia|].
        apply EndFault; [lia|]. rewrite Nat.add_0_r, Hr. reflexivity.
      * injection Hrun as <-. exists 0%nat. split; [lia|]. split; [intros j Hj; lia|].
        apply EndFault; [lia|]. rewrite Nat.add_0_r, Hr. reflexivity.
      * injection Hrun as <-. exists 0%nat. split; [lia|]. split; [intros j Hj; lia|].
        apply EndDatagram; [lia|]. rewrite Nat.add_0_r. exact Hr.
Qed.

(** With a retry budget that is not negative the loop ends within that many
    iterations. *)
Lemma sendPayload_loop_terminates (fuel : nat) :
  forall (attempts : Z) (w : world),
    0 <= attempts -> (Z.to_nat attempts <= fuel)%nat ->
    sendPayload_loop fuel sock payload bufSize attempts w <> None.
Proof.
  induction fuel as [|fuel IH]; intros attempts w Hpos Hfuel.
  - simpl. destruct (Z.eqb_spec attempts 0); [discriminate|lia].
  - simpl. destruct (Z.eqb_spec attempts 0); [discriminate|].
    destruct (sock (length (sends w)) payload); try discriminate; apply IH; lia.
Qed.

End ExchangeRuns.

Lemma sendPayload_check_passes (res : bytes) (w : world) :
  res <> [] -> ~ is_error_reply res -> sendPayload_check res w = (w, Ok res).
Proof.
  intros Hne Hnot.
  destruct (Nat.eq_dec (length res) 4) as [H4|H4].
  - destruct res as [|a [|b [|c [|d [|e res]]]]]; try discriminate H4.
    rewrite sendPayload_check_four.
    destruct (Z.eqb_spec (from_be_signed [a; b]) 256) as [E|E]; [|reflexivity].
    exfalso. apply Hnot. split; [reflexivity|].
    apply (signed_256_iff [a; b] eq_refl). exact E.
  - apply sendPayload_check_other; [|exact H4].
    destruct res; [contradiction|discriminate].
Qed.

Lemma sendPayload_check_ok_inv (res res' : bytes) (w w' : world) :
  sendPayload_check res w = (w', Ok res') ->
  w' = w /\ res' = res /\ res <> [] /\ ~ is_error_reply res.
Proof.
  intros H.
  assert (Hne : res <> []).
  { intros ->. vm_compute in H. discriminate H. }
  assert (Hnot : ~ is_error_reply res).
  { intros Herr. apply (sendPayload_check_exit4_iff res w) in Herr.
    rewrite H in Herr. discriminate Herr. }
  rewrite sendPayload_check_passes in H by assumption.
  injection H as <- <-. auto.
Qed.

Lemma sendPayload_check_stdout (res : bytes) (w : world) :
  sends (fst (sendPayload_check res w)) = sends w /\
  (stdout (fst (sendPayload_check res w)) = stdout w \/
   exists line, stdout (fst (sendPayload_check res w)) = stdout w ++ [line]).
Proof.
  destruct res as [|a [|b [|c [|d [|e res]]]]];
    try (rewrite sendPayload_check_other by (simpl; lia); simpl; auto).
  - simpl. split; [reflexivity|]. right. eexists. reflexivity.
  - rewrite sendPayload_check_four.
    destruct (from_be_signed [a; b] =? 256); simpl; split; auto.
    right. eexists. reflexivity.
Qed.

(** A reply that passes the checks is returned. *)
Lemma sendPayload_reply_passes
    (sock : socket) (payload data : bytes) (bufSize fuel k : nat) (attempts : Z)
    (w : world) :
  (forall j, (j < k)%nat -> timed_out (sock (length (sends w) + j)%nat payload) = true) ->
  sock (length (sends w) + k)%nat payload = Datagram data ->
  attempts < 0 \/ Z.of_nat k < attempts ->
  (k < fuel)%nat ->
  firstn bufSize data <> [] ->
  ~ is_error_reply (firstn bufSize data) ->
  sendPayload fuel sock payload bufSize attempts w =
  Some ({| sends := sends w ++ repeat payload (S k); stdout := stdout w |},
        Ok (firstn bufSize data)).
Proof.
  intros Hto Hd Hatt Hfuel Hne Hnot. unfold sendPayload.
  rewrite (sendPayload_loop_round sock payload bufSize k fuel attempts w Hto Hatt Hfuel).
  rewrite Hd. rewrite sendPayload_check_passes by assumption. reflexivity.
Qed.


(** X1: the first datagram that arrives is the result.  After [k] rounds that
    time out, a datagram whose first [bufSize] bytes are not empty and not
    the error layout is returned, cut to [bufSize] bytes; the request has
    been sent [k + 1] times and nothing is printed. *)
Theorem sendPayload_returns_first_reply
    (sock : socket) (payload data : bytes) (bufSize fuel k : nat) (attempts : Z)
    (w : world) :
  (forall j, (j < k)%nat -> timed_out (sock (length (sends w) + j)%nat payload) = true) ->
  sock (length (sends w) + k)%nat payload = Datagram data ->
  attempts < 0 \/ Z.of_nat k < attempts ->
  (k < fuel)%nat ->
  firstn bufSize data <> [] ->
  ~ is_error_reply (firstn bufSize data) ->
  sendPayload fuel sock payload bufSize attempts w =
  Some ({| sends := sends w ++ repeat payload (S k); stdout := stdout w |},
        Ok (firstn bufSize data)).
Proof. apply sendPayload_reply_passes. Qed.

Lemma sendPayload_returns_first_reply_witness :
  sendPayload 9 (fun j _ => if (j <? 1)%nat then RecvTimeout else Datagram [x00; x02; x07])
              [x01] 2 5 world0 =
  Some ({| sends := [[x01]; [x01]]; stdout := [] |}, Ok [x00; x02]).
Proof.
  apply (sendPayload_returns_first_reply
           (fun j _ => if (j <? 1)%nat then RecvTimeout else Datagram [x00; x02; x07])
           [x01] [x00; x02; x07] 2 9 1 5 world0).
  - intros j Hj. simpl. destruct (Nat.ltb_spec j 1); [reflexivity|lia].
  - reflexivity.
  - right; lia.
  - lia.
  - discriminate.
  - intros [H _]. discriminate H.
Defined.

(** X2: an error reply with any 16-bit code ends the exchange with exit code
    4 and one printed line that carries the code and its message from the
    table; the request is not sent again. *)
Theorem sendPayload_error_reply
    (sock : socket) (payload : bytes) (bufSize fuel k : nat) (attempts code : Z)
    (w : world) :
  (forall j, (j < k)%nat -> timed_out (sock (length (sends w) + j)%nat payload) = true) ->
  sock (length (sends w) + k)%nat payload = Datagram ([x01; x00] ++ to_be 2 code) ->
  int16 code ->
  (4 <= bufSize)%nat ->
  attempts < 0 \/ Z.of_nat k < attempts ->
  (k < fuel)%nat ->
  sendPayload fuel sock payload bufSize attempts w =
  Some ({| sends := sends w ++ repeat payload (S k);
           stdout := stdout w ++
                     [lit "ERROR: Auth server returned an error. [" ++ str_of_int code
                      ++ lit "] " ++ getServerErrorMsg code] |},
        Raise (SystemExit 4)).
Proof.
  intros Hto Hd Hcode Hbuf Hatt Hfuel. unfold sendPayload.
  rewrite (sendPayload_loop_round sock payload bufSize k fuel attempts w Hto Hatt Hfuel).
  rewrite Hd.
  rewrite firstn_all2 by (rewrite length_app, length_to_be; simpl; lia).
  pose proof (length_to_be 2 code) as Hlen.
  destruct (to_be 2 code) as [|c [|d [|e x]]] eqn:E; try discriminate Hlen.
  cbn [app]. rewrite sendPayload_check_four.
  change (from_be_signed [x01; x00] =? 256) with true. cbv iota.
  rewrite <- E, unpack_h_pack by exact Hcode. reflexivity.
Qed.

Lemma sendPayload_error_reply_witness :
  sendPayload 9 (fun _ _ => Datagram [x01; x00; xff; xfe]) [x01] 4096 5 world0 =
  Some ({| sends := [[x01]];
           stdout := [lit "ERROR: Auth server returned an error. [-2] UNKNOWN_ERROR_CODE"] |},
        Raise (SystemExit 4)).
Proof.
  apply (sendPayload_error_reply (fun _ _ => Datagram [x01; x00; xff; xfe])
           [x01] 4096 9 0 5 (-2) world0).
  - intros j Hj. lia.
  - reflexivity.
  - unfold int16; lia.
  - lia.
  - right; lia.
  - lia.
Defined.

(** What holds of bytes that the exchange returns. *)
Lemma sendPayload_ok_inv
    (sock : socket) (payload res : bytes) (bufSize fuel : nat) (attempts : Z)
    (w w' : world) :
  sendPayload fuel sock payload bufSize attempts w = Some (w', Ok res) ->
  res <> [] /\ (length res <= bufSize)%nat /\ ~ is_error_reply res /\
  stdout w' = stdout w /\
  exists k : nat,
    sends w' = sends w ++ repeat payload (S k) /\
    (attempts < 0 \/ Z.of_nat (S k) <= attempts).
Proof.
  unfold sendPayload. intros H.
  destruct (sendPayload_loop fuel sock payload bufSize attempts w)
    as [[w1 [res1|e]]|] eqn:Hloop; try discriminate H.
  injection H as H.
  apply sendPayload_check_ok_inv in H. destruct H as [Hw [Hres [Hne Hnot]]].
  subst w' res.
  apply sendPayload_loop_inv in Hloop. destruct Hloop as [k [_ [_ Hend]]].
  inversion Hend; subst.
  - contradiction.
  - repeat split; auto.
    + rewrite length_firstn. lia.
    + exists k. split; [reflexivity|lia].
Qed.


(** X3: whatever the channel does, bytes returned by the exchange are not
    empty, are at most [bufSize] long and do not have the error layout;
    nothing was printed, and the request was sent at least once and, with a
    budget that is not negative, at most [attempts] times. *)
Theorem sendPayload_result_invariant
    (sock : socket) (payload res : bytes) (bufSize fuel : nat) (attempts : Z)
    (w w' : world) :
  sendPayload fuel sock payload bufSize attempts w = Some (w', Ok res) ->
  res <> [] /\ (length res <= bufSize)%nat /\ ~ is_error_reply res /\
  stdout w' = stdout w /\
  exists k : nat,
    sends w' = sends w ++ repeat payload (S k) /\
    (attempts < 0 \/ Z.of_nat (S k) <= attempts).
Proof. apply sendPayload_ok_inv. Qed.

Lemma sendPayload_result_invariant_witness :
  sendPayload 9 (fun j _ => if (j <? 1)%nat then RecvTimeout else Datagram [x00; x02; x07])
              [x01] 2 5 world0
  = Some ({| sends := [[x01]; [x01]]; stdout := [] |}, Ok [x00; x02]) /\
  [x00; x02] <> [] /\ (length [x00; x02] <= 2)%nat /\ ~ is_error_reply [x00; x02].
Proof.
  split; [reflexivity|].
  destruct (sendPayload_result_invariant
              (fun j _ => if (j <? 1)%nat then RecvTimeout else Datagram [x00; x02; x07])
              [x01] [x00; x02] 2 9 5 world0
              {| sends := [[x01]; [x01]]; stdout := [] |} eq_refl)
    as [H1 [H2 [H3 _]]].
  split; [exact H1|]. split; [exact H2 | exact H3].
Defined.

(** X4: with a retry budget that is not negative the exchange always ends,
    whatever the channel does: the request is sent at most [attempts] times
    and at most one line is printed. *)
Theorem sendPayload_terminates
    (sock : socket) (payload : bytes) (bufSize fuel : nat) (attempts : Z) (w : world) :
  0 <= attempts ->
  (Z.to_nat attempts <= fuel)%nat ->
  exists (w' : world) (r : result bytes) (k : nat),
    sendPayload fuel sock payload bufSize attempts w = Some (w', r) /\
    Z.of_nat k <= attempts /\
    sends w' = sends w ++ repeat payload k /\
    (stdout w' = stdout w \/ exists line, stdout w' = stdout w ++ [line]).
Proof.
  intros Hpos Hfuel. unfold sendPayload.
  destruct (sendPayload_loop fuel sock payload bufSize attempts w) as [out|] eqn:Hloop.
  - apply sendPayload_loop_inv in Hloop. destruct Hloop as [k [_ [_ Hend]]].
    inversion Hend as [Ha Hw|data Ha Hd Hw|msg Ha Hf Hw]; subst out.
    + destruct (sendPayload_check_stdout [] (after_sends k payload w)) as [Hs Ho].
      destruct (sendPayload_check [] (after_sends k payload w)) as [w' r].
      exists w', r, k. repeat split; auto; lia.
    + destruct (sendPayload_check_stdout (firstn bufSize data)
                  (after_sends (S k) payload w)) as [Hs Ho].
      destruct (sendPayload_check (firstn bufSize data) (after_sends (S k) payload w))
        as [w' r].
      exists w', r, (S k). repeat split; auto; lia.
    + eexists. eexists. exists (S k). split; [reflexivity|]. split; [lia|].
      split; [reflexivity|]. right. eexists. reflexivity.
  - exfalso. revert Hloop. apply sendPayload_loop_terminates; assumption.
Qed.

Lemma sendPayload_terminates_witness :
  exists (w' : world) (r : result bytes) (k : nat),
    sendPayload 5 (fun _ _ => SendOSError (lit "down")) [x01] 4096 5 world0
    = Some (w', r) /\ Z.of_nat k <= 5.
Proof.
  destruct (sendPayload_terminates (fun _ _ => SendOSError (lit "down")) [x01] 4096 5 5
              world0) as [w' [r [k [H1 [H2 _]]]]].
  - lia.
  - simpl; lia.
  - exists w', r, k. split; [exact H1 | exact H2].
Defined.

(** X5: with a negative retry budget and a channel on which every round times
    out the loop never ends: the budget moves away from zero, and no number
    of iterations gives a result. *)
Theorem sendPayload_negative_attempts_diverges
    (sock : socket) (payload : bytes) (bufSize : nat) (attempts : Z) :
  attempts < 0 ->
  (forall j, timed_out (sock j payload) = true) ->
  forall (fuel : nat) (w : world),
    sendPayload fuel sock payload bufSize attempts w = None.
Proof.
  intros Hneg Hto fuel. revert attempts Hneg.
  assert (Hloop : forall attempts w, attempts < 0 ->
            sendPayload_loop fuel sock payload bufSize attempts w = None).
  { induction fuel as [|fuel IH]; intros attempts w Hneg; simpl;
      (destruct (Z.eqb_spec attempts 0); [lia|]); [reflexivity|].
    specialize (Hto (length (sends w))).
    destruct (sock (length (sends w)) payload); try discriminate Hto; apply IH; lia. }
  intros attempts Hneg w. unfold sendPayload. rewrite Hloop by exact Hneg. reflexivity.
Qed.

Lemma sendPayload_negative_attempts_diverges_witness :
  sendPayload 1000 (fun _ _ => RecvTimeout) [x01] 4096 (-1) world0 = None.
Proof.
  apply (sendPayload_negative_attempts_diverges (fun _ _ => RecvTimeout) [x01] 4096 (-1)).
  - lia.
  - reflexivity.
Defined.

(** * Further properties of the codec *)

Lemma bind_ok_inv {A B} (c : result A) (k : A -> result B) (b : B) :
  bind c k = Ok b -> exists a, c = Ok a /\ k a = Ok b.
Proof. destruct c as [a|e]; simpl; [eauto|discriminate]. Qed.

Lemma encode_ascii_ok_inv (s : str) (x : bytes) :
  encode_ascii s = Ok x -> ascii_str s /\ x = map byte_of_N s.
Proof.
  unfold encode_ascii. destruct (forallb is_ascii s) eqn:E; [|discriminate].
  intros H. injection H as <-. split; [apply forallb_is_ascii; exact E|reflexivity].
Qed.

Lemma encode_ascii_not_ascii (s : str) :
  ~ ascii_str s -> encode_ascii s = Raise UnicodeEncodeError.
Proof.
  intros H. unfold encode_ascii. destruct (forallb is_ascii s) eqn:E; [|reflexivity].
  exfalso. apply H. apply forallb_is_ascii. exact E.
Qed.

Lemma decode_ascii_not_ascii (x : bytes) :
  ~ ascii_bytes x -> decode_ascii x = Raise UnicodeDecodeError.
Proof.
  intros H. unfold decode_ascii.
  destruct (forallb (fun c => is_ascii (Byte.to_N c)) x) eqn:E; [|reflexivity].
  exfalso. apply H. apply forallb_is_ascii_bytes. exact E.
Qed.

Lemma ascii_str_ljust_inv (s : str) (width : nat) : ascii_str (ljust s width) -> ascii_str s.
Proof.
  unfold ljust. destruct (width <=? length s)%nat; [auto|].
  intros H. apply Forall_app in H. apply H.
Qed.

Lemma pack_int_ok_inv (n : nat) (z : Z) (x : bytes) :
  pack_int n z = Ok x ->
  - 2 ^ (8 * Z.of_nat n - 1) <= z < 2 ^ (8 * Z.of_nat n - 1) /\ x = to_be n z.
Proof.
  unfold pack_int. cbv zeta.
  destruct (Z.leb_spec (- 2 ^ (8 * Z.of_nat n - 1)) z) as [Hlo|Hlo];
    destruct (Z.ltb_spec z (2 ^ (8 * Z.of_nat n - 1))) as [Hhi|Hhi];
    cbn [andb]; try discriminate.
  intros E. injection E as <-. split; [lia|reflexivity].
Qed.

Lemma pack_int_out_of_range (n : nat) (z : Z) :
  ~ (- 2 ^ (8 * Z.of_nat n - 1) <= z < 2 ^ (8 * Z.of_nat n - 1)) ->
  pack_int n z = Raise StructError.
Proof.
  intros H. destruct (pack_int n z) as [x|e] eqn:E.
  - apply pack_int_ok_inv in E. tauto.
  - unfold pack_int in E. cbv zeta in E.
    destruct ((- 2 ^ (8 * Z.of_nat n - 1) <=? z) && (z <? 2 ^ (8 * Z.of_nat n - 1)));
      [discriminate E|]. injection E as <-. reflexivity.
Qed.

Lemma pack_item_length (c : code) (v : value) (x : bytes) :
  pack_item c v = Ok x -> length x = size c.
Proof.
  destruct c, v; simpl; try discriminate; intros H;
    try (apply pack_int_ok_inv in H; destruct H as [_ ->]; apply length_to_be).
  injection H as <-. apply length_pack_s.
Qed.

(** Whatever [struct.pack] produces has the size of its format. *)
Lemma pack_length (fmt : list code) (vs : list value) (x : bytes) :
  struct.pack fmt vs = Ok x -> length x = calcsize fmt.
Proof.
  unfold pack. destruct (valid fmt); [|discriminate]. clear.
  revert vs x. induction fmt as [|c fmt IH]; intros [|v vs] x; simpl; try discriminate.
  - intros H. injection H as <-. reflexivity.
  - intros H. apply bind_ok_inv in H. destruct H as [a [Ha H]].
    apply bind_ok_inv in H. destruct H as [rest [Hrest H]]. injection H as <-.
    rewrite length_app, (pack_item_length _ _ _ Ha), (IH _ _ Hrest). reflexivity.
Qed.

Lemma pack_valid (fmt : list code) (vs : list value) (x : bytes) :
  struct.pack fmt vs = Ok x -> valid fmt = true.
Proof. unfold pack. destruct (valid fmt); [reflexivity|discriminate]. Qed.

Lemma build_sasChunk_ok_inv (group : list sas) :
  forall (acc x : bytes), build_sasChunk group acc = Ok x -> Forall encodable group.
Proof.
  induction group as [|m group IH]; intros acc x H; [constructor|].
  cbn [build_sasChunk] in H. apply bind_ok_inv in H. destruct H as [c [Hc H]].
  constructor; [|eapply IH; exact H].
  destruct m as [[i k] tk]. unfold pack_sas in Hc.
  apply bind_ok_inv in Hc. destruct Hc as [idb [Hi Hc]].
  apply bind_ok_inv in Hc. destruct Hc as [tkb [Ht Hc]].
  apply encode_ascii_ok_inv in Hi. apply encode_ascii_ok_inv in Ht.
  split; [eapply ascii_str_ljust_inv; apply Hi|]. split; [|apply Ht].
  unfold pack in Hc. change (valid [Fs 12; Fi; Fs 64]) with true in Hc.
  cbv [pack_items pack_item] in Hc.
  destruct (pack_int 4 k) as [y|e] eqn:E; [|discriminate Hc].
  apply pack_int_ok_inv in E. apply E.
Qed.

(** X6: every payload that is produced has exactly the size of its layout,
    for every record: 18 bytes for an individual request, 82 for an individual
    validation, [4 + 80 * n] for a group request and [68 + 80 * n] for a group
    validation, whatever the lengths of the ids, the tokens and the member
    list. *)
Theorem payload_sizes :
  (forall itr p, sendIndividualTokenRequest_payload itr = Ok p -> length p = 18%nat) /\
  (forall itv p, sendIndividualTokenValidation_payload itv = Ok p -> length p = 82%nat) /\
  (forall gtr p,
      sendGroupTokenRequest_payload gtr = Ok p ->
      0 <= GroupTokenRequest.n gtr /\
      length p = (4 + 80 * Z.to_nat (GroupTokenRequest.n gtr))%nat) /\
  (forall gtv p,
      sendGroupTokenValidation_payload gtv = Ok p ->
      0 <= GroupTokenValidation.n gtv /\
      length p = (68 + 80 * Z.to_nat (GroupTokenValidation.n gtv))%nat).
Proof.
  split; [|split; [|split]].
  - intros itr p H. unfold sendIndividualTokenRequest_payload in H.
    apply bind_ok_inv in H. destruct H as [idb [_ H]].
    apply pack_length in H. exact H.
  - intros itv p H. unfold sendIndividualTokenValidation_payload in H.
    apply bind_ok_inv in H. destruct H as [idb [_ H]].
    apply bind_ok_inv in H. destruct H as [tkb [_ H]].
    apply pack_length in H. exact H.
  - intros gtr p H. unfold sendGroupTokenRequest_payload in H.
    apply bind_ok_inv in H. destruct H as [c [_ H]].
    pose proof (pack_valid _ _ _ H) as Hv. cbv [valid forallb valid_code andb] in Hv.
    destruct (Z.leb_spec 0 (80 * GroupTokenRequest.n gtr)); [|discriminate Hv].
    split; [lia|].
    apply pack_length in H. rewrite H. cbv [calcsize map size list_sum fold_right]. lia.
  - intros gtv p H. unfold sendGroupTokenValidation_payload in H.
    apply bind_ok_inv in H. destruct H as [c [_ H]].
    apply bind_ok_inv in H. destruct H as [tkb [_ H]].
    pose proof (pack_valid _ _ _ H) as Hv. cbv [valid forallb valid_code andb] in Hv.
    destruct (Z.leb_spec 0 (80 * GroupTokenValidation.n gtv)); [|discriminate Hv].
    split; [lia|].
    apply pack_length in H. rewrite H. cbv [calcsize map size list_sum fold_right]. lia.
Qed.

Lemma payload_sizes_witness :
  length ([x00; x01] ++ list_byte_of_string "abcdefghijkl" ++ [x00; x00; x00; x2a])
  = 18%nat.
Proof.
  apply (proj1 payload_sizes (IndividualTokenRequest.init (lit "abcdefghijklmnop") 42)).
  reflexivity.
Defined.

(** X7: the three outcomes of encoding an individual request.  An id with a
    character that is not ASCII raises [UnicodeEncodeError], whatever the
    nonce; an ASCII id with a nonce outside the signed 32-bit range raises
    the [struct] error; otherwise the 18 bytes are produced. *)
Theorem individual_request_outcomes (id : str) (nonce : Z) :
  (~ ascii_str id ->
   sendIndividualTokenRequest_payload (IndividualTokenRequest.init id nonce)
   = Raise UnicodeEncodeError) /\
  (ascii_str id -> ~ int32 nonce ->
   sendIndividualTokenRequest_payload (IndividualTokenRequest.init id nonce)
   = Raise StructError) /\
  (ascii_str id -> int32 nonce ->
   sendIndividualTokenRequest_payload (IndividualTokenRequest.init id nonce)
   = Ok ([x00; x01] ++ pack_s 12 (map byte_of_N (ljust id 12)) ++ to_be 4 nonce)).
Proof.
  split; [|split].
  - intros Hid. unfold sendIndividualTokenRequest_payload. simpl.
    rewrite encode_ascii_not_ascii; [reflexivity|].
    intros H. apply Hid. eapply ascii_str_ljust_inv. exact H.
  - intros Hid Hn. unfold sendIndividualTokenRequest_payload. simpl.
    rewrite encode_ascii_ok by (apply ascii_str_ljust; exact Hid).
    cbv [bind]. unfold pack. change (valid [Fh; Fs 12; Fi]) with true.
    cbv [pack_items pack_item bind].
    rewrite (pack_int_out_of_range 4 nonce) by exact Hn.
    change (pack_int 2 1) with (@Ok bytes [x00; x01]). reflexivity.
  - apply itr_payload_ascii.
Qed.

Lemma individual_request_outcomes_witness :
  sendIndividualTokenRequest_payload (IndividualTokenRequest.init (lit "bob") (2 ^ 31))
  = Raise StructError.
Proof.
  apply (proj1 (proj2 (individual_request_outcomes (lit "bob") (2 ^ 31)))).
  - repeat constructor.
  - unfold int32. lia.
Defined.

(** X8: a group request is encoded exactly when its declared size is between
    0 and 32767 and every member of the list can be packed; the members
    beyond the declared size, whose bytes are cut away, count as well. *)
Theorem group_request_encodes_iff (n : Z) (group : list sas) :
  (exists p, sendGroupTokenRequest_payload (GroupTokenRequest.init n group) = Ok p) <->
  0 <= n <= 32767 /\ Forall encodable group.
Proof.
  split.
  - intros [p H]. unfold sendGroupTokenRequest_payload, GroupTokenRequest.init in H.
    cbn [GroupTokenRequest.group GroupTokenRequest.n GroupTokenRequest.type] in H.
    apply bind_ok_inv in H. destruct H as [c [Hc H]].
    split; [|eapply build_sasChunk_ok_inv; exact Hc].
    pose proof (pack_valid _ _ _ H) as Hv.
    unfold pack in H. rewrite Hv in H.
    cbv [valid forallb valid_code andb] in Hv.
    destruct (Z.leb_spec 0 (80 * n)); [|discriminate Hv].
    cbv [pack_items pack_item] in H.
    apply bind_ok_inv in H. destruct H as [a [_ H]].
    apply bind_ok_inv in H. destruct H as [rest [H _]].
    apply bind_ok_inv in H. destruct H as [b [Hb _]].
    apply pack_int_ok_inv in Hb. destruct Hb as [Hb _].
    change (2 ^ (8 * Z.of_nat 2 - 1)) with 32768 in Hb. lia.
  - intros [Hn Hg]. eexists. apply gtr_payload_ok; assumption.
Qed.

Lemma group_request_encodes_iff_witness :
  ~ exists p,
      sendGroupTokenRequest_payload
        (GroupTokenRequest.init 0 [(lit "bob", 1, [233%N])]) = Ok p.
Proof.
  intros H.
  apply (proj1 (group_request_encodes_iff 0 [(lit "bob", 1, [233%N])])) in H.
  destruct H as [_ H]. inversion H as [|m g Hm Hg]. subst.
  unfold encodable in Hm. destruct Hm as [_ [_ Ht]].
  inversion Ht as [|c s Hc Hs]. subst. vm_compute in Hc. discriminate Hc.
Defined.

(** ** Decoding arbitrary replies *)

Lemma unpack_wrong_size (fmt : list code) (x : bytes) :
  length x <> calcsize fmt -> struct.unpack fmt x = Raise StructError.
Proof.
  intros H. unfold unpack. destruct (valid fmt); [|reflexivity].
  destruct (Nat.eqb_spec (length x) (calcsize fmt)); [contradiction|reflexivity].
Qed.

Lemma unpack_itres_any (res : bytes) :
  length res = 82%nat ->
  struct.unpack [Fh; Fs 12; Fi; Fs 64] res =
  Ok [Int (from_be_signed (field res 0 2)); Bytes (field res 2 12);
      Int (from_be_signed (field res 14 4)); Bytes (field res 18 64)].
Proof.
  intros H. unfold unpack. change (valid [Fh; Fs 12; Fi; Fs 64]) with true.
  change (calcsize [Fh; Fs 12; Fi; Fs 64]) with 82%nat. rewrite H.
  change (82 =? 82)%nat with true. cbv iota.
  cbv [unpack_items unpack_item size]. change (Z.to_nat 12) with 12%nat.
  change (Z.to_nat 64) with 64%nat. rewrite !skipn_skipn. reflexivity.
Qed.

Lemma unpack_its_any (res : bytes) :
  length res = 83%nat ->
  struct.unpack [Fh; Fs 12; Fi; Fs 64; Fb] res =
  Ok [Int (from_be_signed (field res 0 2)); Bytes (field res 2 12);
      Int (from_be_signed (field res 14 4)); Bytes (field res 18 64);
      Int (from_be_signed (field res 82 1))].
Proof.
  intros H. unfold unpack. change (valid [Fh; Fs 12; Fi; Fs 64; Fb]) with true.
  change (calcsize [Fh; Fs 12; Fi; Fs 64; Fb]) with 83%nat. rewrite H.
  change (83 =? 83)%nat with true. cbv iota.
  cbv [unpack_items unpack_item size]. change (Z.to_nat 12) with 12%nat.
  change (Z.to_nat 64) with 64%nat. rewrite !skipn_skipn. reflexivity.
Qed.

Lemma itr_parse_82 (res : bytes) :
  length res = 82%nat ->
  sendIndividualTokenRequest_parse res =
  (i <- decode_ascii (field res 2 12) ;;
   tk <- decode_ascii (field res 18 64) ;;
   Ok (IndividualTokenResponse.init (from_be_signed (field res 0 2)) (strip i)
                                    (from_be_signed (field res 14 4)) tk)).
Proof.
  intros H. unfold sendIndividualTokenRequest_parse.
  rewrite unpack_itres_any by exact H. reflexivity.
Qed.

Lemma itr_parse_not_82 (res : bytes) :
  length res <> 82%nat -> sendIndividualTokenRequest_parse res = Raise StructError.
Proof.
  intros H. unfold sendIndividualTokenRequest_parse.
  rewrite unpack_wrong_size by exact H. reflexivity.
Qed.

Lemma itv_parse_83 (res : bytes) :
  length res = 83%nat ->
  sendIndividualTokenValidation_parse res =
  (i <- decode_ascii (field res 2 12) ;;
   tk <- decode_ascii (field res 18 64) ;;
   Ok (IndividualTokenStatus.init (from_be_signed (field res 0 2)) (strip i)
                                  (from_be_signed (field res 14 4)) tk
                                  (from_be_signed (field res 82 1)))).
Proof.
  intros H. unfold sendIndividualTokenValidation_parse.
  rewrite unpack_its_any by exact H. reflexivity.
Qed.

Lemma itv_parse_not_83 (res : bytes) :
  length res <> 83%nat -> sendIndividualTokenValidation_parse res = Raise StructError.
Proof.
  intros H. unfold sendIndividualTokenValidation_parse.
  rewrite unpack_wrong_size by exact H. reflexivity.
Qed.

(** X9: what decoding an individual response gives for every byte sequence.
    A length other than 82 raises the [struct] error; with 82 bytes, a byte
    of 128 or more in the id field or in the token field raises
    [UnicodeDecodeError]; otherwise the response has the signed type and
    nonce fields, the stripped id field and the token field as it is. *)
Theorem individual_response_decoding (res : bytes) :
  (length res <> 82%nat -> sendIndividualTokenRequest_parse res = Raise StructError) /\
  (length res = 82%nat ->
   ~ (ascii_bytes (field res 2 12) /\ ascii_bytes (field res 18 64)) ->
   sendIndividualTokenRequest_parse res = Raise UnicodeDecodeError) /\
  (length res = 82%nat ->
   ascii_bytes (field res 2 12) -> ascii_bytes (field res 18 64) ->
   sendIndividualTokenRequest_parse res =
   Ok (IndividualTokenResponse.init
         (from_be_signed (field res 0 2)) (strip (map Byte.to_N (field res 2 12)))
         (from_be_signed (field res 14 4)) (map Byte.to_N (field res 18 64)))).
Proof.
  split; [apply itr_parse_not_82|]. split.
  - intros Hlen Hnot. rewrite itr_parse_82 by exact Hlen.
    destruct (decode_ascii (field res 2 12)) as [i|e] eqn:Ei.
    + destruct (decode_ascii (field res 18 64)) as [tk|e] eqn:Et.
      * exfalso. apply Hnot. unfold decode_ascii in Ei, Et.
        destruct (forallb (fun c => is_ascii (Byte.to_N c)) (field res 2 12)) eqn:Fi;
          [|discriminate Ei].
        destruct (forallb (fun c => is_ascii (Byte.to_N c)) (field res 18 64)) eqn:Ft;
          [|discriminate Et].
        split; apply forallb_is_ascii_bytes; assumption.
      * simpl. unfold decode_ascii in Et.
        destruct (forallb (fun c => is_ascii (Byte.to_N c)) (field res 18 64));
          [discriminate Et|]. injection Et as <-. reflexivity.
    + simpl. unfold decode_ascii in Ei.
      destruct (forallb (fun c => is_ascii (Byte.to_N c)) (field res 2 12));
        [discriminate Ei|]. injection Ei as <-. reflexivity.
  - intros Hlen Hi Ht. rewrite itr_parse_82 by exact Hlen.
    rewrite !decode_ascii_ok by assumption. reflexivity.
Qed.

Lemma individual_response_decoding_witness :
  sendIndividualTokenRequest_parse [x00; x02; x00; x03] = Raise StructError /\
  sendIndividualTokenRequest_parse (repeat xff 82) = Raise UnicodeDecodeError /\
  sendIndividualTokenRequest_parse alice_reply
  = Ok (IndividualTokenResponse.init 2 (lit "alice") 42 (lit "T0K3N" ++ repeat 32%N 59)).
Proof.
  split; [|split].
  - apply (proj1 (individual_response_decoding [x00; x02; x00; x03])). discriminate.
  - apply (proj1 (proj2 (individual_response_decoding (repeat xff 82)))).
    + reflexivity.
    + intros [H _]. inversion H as [|c x Hc Hx]. vm_compute in Hc. discriminate Hc.
  - apply (proj2 (proj2 (individual_response_decoding alice_reply))).
    + reflexivity.
    + repeat constructor.
    + repeat constructor.
Defined.

(** ** What the decoders guarantee *)

Lemma lstrip_no_lead (s : str) : lstrip (lstrip s) = lstrip s.
Proof.
  induction s as [|c s IH]; [reflexivity|]. simpl.
  destruct (isspace c) eqn:E; [exact IH|]. simpl. rewrite E. reflexivity.
Qed.

Lemma lstrip_snoc (s : str) (c : N) :
  isspace c = false -> exists x, lstrip (s ++ [c]) = x ++ [c].
Proof.
  intros Hc. induction s as [|d s [x IH]]; simpl.
  - rewrite Hc. exists []. reflexivity.
  - destruct (isspace d); [exists x; exact IH|]. exists (d :: s). reflexivity.
Qed.

(** The head of a string that [lstrip] leaves alone survives [rstrip]. *)
Lemma lstrip_rstrip (s : str) : lstrip s = s -> lstrip (rstrip s) = rstrip s.
Proof.
  intros H. destruct s as [|c s]; [reflexivity|].
  assert (Hc : isspace c = false).
  { simpl in H. destruct (isspace c); [|reflexivity].
    pose proof (length_lstrip s) as L. rewrite H in L. simpl in L. lia. }
  unfold rstrip. simpl rev.
  destruct (lstrip_snoc (rev s) c Hc) as [x ->].
  rewrite rev_app_distr. simpl. rewrite Hc. reflexivity.
Qed.

Lemma strip_trimmed (s : str) : trimmed (strip s).
Proof.
  unfold trimmed, strip.
  rewrite (lstrip_rstrip (lstrip s) (lstrip_no_lead s)).
  unfold rstrip at 1. unfold rstrip at 1. rewrite rev_involutive, lstrip_no_lead.
  reflexivity.
Qed.

Lemma from_be_bound (x : bytes) : 0 <= from_be x < 256 ^ Z.of_nat (length x).
Proof.
  induction x as [|c x IH]; [unfold from_be; simpl; lia|].
  rewrite from_be_cons. pose proof (byte_range c).
  change (length (c :: x)) with (S (length x)).
  rewrite Nat2Z.inj_succ, Z.pow_succ_r by lia. nia.
Qed.

Lemma from_be_signed_four (x : bytes) : length x = 4%nat -> int32 (from_be_signed x).
Proof.
  intros H. unfold from_be_signed, int32. cbv zeta. rewrite H.
  pose proof (from_be_bound x) as B. rewrite H in B.
  change (256 ^ Z.of_nat 4) with 4294967296 in B.
  change (2 ^ (8 * Z.of_nat 4 - 1)) with 2147483648.
  change (2 ^ (8 * Z.of_nat 4)) with 4294967296.
  change (2 ^ 31) with 2147483648.
  destruct (Z.ltb_spec (from_be x) 2147483648); lia.
Qed.

Lemma decode_ascii_ok_inv (x : bytes) (s : str) :
  decode_ascii x = Ok s -> s = map Byte.to_N x /\ ascii_str s.
Proof.
  unfold decode_ascii.
  destruct (forallb (fun c => is_ascii (Byte.to_N c)) x) eqn:E; [|discriminate].
  intros H. injection H as <-. split; [reflexivity|].
  apply forallb_is_ascii_bytes in E. unfold ascii_bytes in E. unfold ascii_str.
  rewrite Forall_map. exact E.
Qed.

Lemma length_field (x : bytes) (lo len : nat) :
  (lo + len <= length x)%nat -> length (field x lo len) = len.
Proof. intros H. unfold field. rewrite length_firstn, length_skipn. lia. Qed.

Lemma unpack_sas_any (x : bytes) :
  length x = 80%nat ->
  struct.unpack [Fs 12; Fi; Fs 64] x =
  Ok [Bytes (field x 0 12); Int (from_be_signed (field x 12 4)); Bytes (field x 16 64)].
Proof.
  intros H. unfold unpack. change (valid [Fs 12; Fi; Fs 64]) with true.
  change (calcsize [Fs 12; Fi; Fs 64]) with 80%nat. rewrite H.
  change (80 =? 80)%nat with true. cbv iota.
  cbv [unpack_items unpack_item size]. change (Z.to_nat 12) with 12%nat.
  change (Z.to_nat 64) with 64%nat. rewrite !skipn_skipn. reflexivity.
Qed.

Lemma unpack_sas_decoded (x : bytes) (m : sas) : unpack_sas x = Ok m -> decoded_member m.
Proof.
  intros H. unfold unpack_sas in H.
  destruct (Nat.eq_dec (length x) 80) as [L|L];
    [|rewrite unpack_wrong_size in H by exact L; discriminate H].
  rewrite unpack_sas_any in H by exact L. cbv [bind] in H.
  destruct (decode_ascii (field x 0 12)) as [i|e]; [|discriminate H].
  destruct (decode_ascii (field x 16 64)) as [tk|e] eqn:Ht; [|discriminate H].
  assert (E : m = (strip i, from_be_signed (field x 12 4), tk)) by congruence.
  subst m. apply decode_ascii_ok_inv in Ht. destruct Ht as [-> Ha].
  split; [apply strip_trimmed|]. split; [|split; [|exact Ha]].
  - apply from_be_signed_four. apply length_field. lia.
  - rewrite length_map. apply length_field. lia.
Qed.

Lemma parse_group_inv (chunks : list bytes) :
  forall (acc group : list sas),
    parse_group chunks acc = Ok group ->
    exists ms, group = acc ++ ms /\ length ms = length chunks /\ Forall decoded_member ms.
Proof.
  induction chunks as [|x chunks IH]; intros acc group H.
  - simpl in H. injection H as <-. exists []. rewrite app_nil_r. auto.
  - cbn [parse_group] in H. apply bind_ok_inv in H. destruct H as [m [Hm H]].
    apply IH in H. destruct H as [ms [-> [Hlen Hall]]].
    exists (m :: ms). rewrite <- app_assoc. split; [reflexivity|].
    split; [simpl; lia|]. constructor; [eapply unpack_sas_decoded; exact Hm|exact Hall].
Qed.

Lemma length_sas_chunks (raw2 : bytes) (n : Z) : length (sas_chunks raw2 n) = Z.to_nat n.
Proof. unfold sas_chunks, range. rewrite !length_map, length_seq. reflexivity. Qed.

Lemma unpack_gtres_any (n : Z) (res : bytes) :
  0 <= n -> length res = (68 + 80 * Z.to_nat n)%nat ->
  struct.unpack [Fh; Fh; Fs (80 * n); Fs 64] res =
  Ok [Int (from_be_signed (field res 0 2)); Int (from_be_signed (field res 2 2));
      Bytes (field res 4 (Z.to_nat (80 * n)));
      Bytes (field res (4 + Z.to_nat (80 * n)) 64)].
Proof.
  intros Hn H. unfold unpack.
  assert (E : valid [Fh; Fh; Fs (80 * n); Fs 64] = true).
  { cbv [valid forallb valid_code andb]. destruct (Z.leb_spec 0 (80 * n)); [reflexivity|lia]. }
  rewrite E.
  assert (L : (length res =? calcsize [Fh; Fh; Fs (80 * n); Fs 64])%nat = true).
  { apply Nat.eqb_eq. rewrite H. cbv [calcsize map size list_sum fold_right]. lia. }
  rewrite L. cbv [unpack_items unpack_item size]. change (Z.to_nat 64) with 64%nat.
  rewrite !skipn_skipn. unfold field.
  replace (Z.to_nat (80 * n) + (2 + 2))%nat with (4 + Z.to_nat (80 * n))%nat by lia.
  reflexivity.
Qed.

(** X10: what every decoded group response satisfies, whatever the reply.
    The reply has exactly [68 + 80 * n] bytes for the [n] of the request; the
    response has exactly [n] members, taken from the request's [n] and not
    from the size field of the reply; each member has a trimmed id, a nonce
    in the signed 32-bit range and a token of exactly 64 ASCII characters;
    the group token has 64 characters. *)
Theorem group_response_invariant
    (gtr : GroupTokenRequest.t) (res : bytes) (r : GroupTokenResponse.t) :
  sendGroupTokenRequest_parse gtr res = Ok r ->
  0 <= GroupTokenRequest.n gtr /\
  length res = (68 + 80 * Z.to_nat (GroupTokenRequest.n gtr))%nat /\
  length (GroupTokenResponse.group r) = Z.to_nat (GroupTokenRequest.n gtr) /\
  Forall decoded_member (GroupTokenResponse.group r) /\
  length (GroupTokenResponse.token r) = 64%nat /\
  GroupTokenResponse.n r = from_be_signed (field res 2 2).
Proof.
  intros H. unfold sendGroupTokenRequest_parse in H.
  set (n := GroupTokenRequest.n gtr) in *.
  destruct (Z.le_gt_cases 0 n) as [Hn|Hn].
  2:{ unfold unpack in H.
      assert (Hv : valid [Fh; Fh; Fs (80 * n); Fs 64] = false).
      { cbv [valid forallb valid_code andb].
        destruct (Z.leb_spec 0 (80 * n)); [lia|reflexivity]. }
      rewrite Hv in H. discriminate H. }
  destruct (Nat.eq_dec (length res) (68 + 80 * Z.to_nat n)) as [L|L].
  2:{ rewrite unpack_wrong_size in H; [discriminate H|].
      cbv [calcsize map size list_sum fold_right]. lia. }
  rewrite unpack_gtres_any in H by assumption. cbv [bind] in H.
  destruct (parse_group (sas_chunks (field res 4 (Z.to_nat (80 * n))) n) [])
    as [group|e] eqn:Hg; [|discriminate H].
  destruct (decode_ascii (field res (4 + Z.to_nat (80 * n)) 64)) as [tk|e] eqn:Ht;
    [|discriminate H].
  assert (E : r = GroupTokenResponse.init (from_be_signed (field res 0 2))
                    (from_be_signed (field res 2 2)) group tk) by congruence.
  subst r.
  apply parse_group_inv in Hg. destruct Hg as [ms [-> [Hlen Hall]]].
  rewrite length_sas_chunks in Hlen.
  apply decode_ascii_ok_inv in Ht. destruct Ht as [-> _].
  split; [exact Hn|]. split; [exact L|].
  cbn [GroupTokenResponse.group GroupTokenResponse.init
       GroupTokenResponse.token GroupTokenResponse.n app].
  split; [exact Hlen|]. split; [exact Hall|]. split; [|reflexivity].
  rewrite length_map. apply length_field. lia.
Qed.

Lemma group_response_invariant_witness :
  sendGroupTokenRequest_parse
    (GroupTokenRequest.init 2 [(lit "bob", 1, lit "tokA"); (lit "carl", 2, lit "tokB")])
    ([x00; x06; x00; x09]
     ++ sas_bytes (lit "bob", 1, lit "tokA") ++ sas_bytes (lit "carl", 2, lit "tokB")
     ++ repeat x61 64)
  = Ok (GroupTokenResponse.init 6 9
          [(lit "bob", 1, lit "tokA" ++ repeat 0%N 60);
           (lit "carl", 2, lit "tokB" ++ repeat 0%N 60)]
          (repeat 97%N 64)) /\
  length [(lit "bob", 1, lit "tokA" ++ repeat 0%N 60);
          (lit "carl", 2, lit "tokB" ++ repeat 0%N 60)] = 2%nat.
Proof.
  assert (H : sendGroupTokenRequest_parse
                (GroupTokenRequest.init 2
                   [(lit "bob", 1, lit "tokA"); (lit "carl", 2, lit "tokB")])
                ([x00; x06; x00; x09]
                 ++ sas_bytes (lit "bob", 1, lit "tokA")
                 ++ sas_bytes (lit "carl", 2, lit "tokB") ++ repeat x61 64)
              = Ok (GroupTokenResponse.init 6 9
                      [(lit "bob", 1, lit "tokA" ++ repeat 0%N 60);
                       (lit "carl", 2, lit "tokB" ++ repeat 0%N 60)]
                      (repeat 97%N 64))) by (vm_compute; reflexivity).
  split; [exact H|].
  destruct (group_response_invariant _ _ _ H) as [_ [_ [H3 _]]]. exact H3.
Defined.

(** ** The request functions, end to end *)

Lemma firstn_reply_kind (data : bytes) (size : nat) :
  (4 < size)%nat -> (size < 4096)%nat ->
  data <> [] -> ~ is_error_reply data -> length data <> size ->
  firstn 4096 data <> [] /\ ~ is_error_reply (firstn 4096 data) /\
  length (firstn 4096 data) <> size.
Proof.
  intros H4 Hs Hne Hnot Hlen.
  destruct (Nat.le_gt_cases (length data) 4096) as [L|L].
  - rewrite firstn_all2 by exact L. auto.
  - assert (E : length (firstn 4096 data) = 4096%nat)
      by (rewrite length_firstn; lia).
    split; [intros C; rewrite C in E; discriminate E|].
    split; [intros [C _]; lia|lia].
Qed.

Section Requests.

Variables (sock : socket) (fuel k : nat) (w : world) (payload data : bytes).

Hypothesis Htimeouts :
  forall j, (j < k)%nat -> timed_out (sock (length (sends w) + j)%nat payload) = true.
Hypothesis Hdatagram : sock (length (sends w) + k)%nat payload = Datagram data.
Hypothesis Hattempts : (k < 5)%nat.
Hypothesis Hfuel : (k < fuel)%nat.

(** A request whose payload is [payload], answered in round [k] by a datagram
    that passes the checks of the exchange. *)
Lemma request_answered {A} (parse : bytes -> result A) :
  firstn 4096 data <> [] -> ~ is_error_reply (firstn 4096 data) ->
  request (Ok payload) parse fuel sock w =
  Some ({| sends := sends w ++ repeat payload (S k); stdout := stdout w |},
        parse (firstn 4096 data)).
Proof.
  intros Hne Hnot. unfold request, sendPayload_default.
  rewrite (sendPayload_reply_passes sock payload data 4096 fuel k 5 w)
    by (auto; right; lia).
  reflexivity.
Qed.

End Requests.

(** The same for a datagram that [recv] takes whole and that is longer than
    the error layout. *)
Lemma request_answered_whole {A} (sock : socket) (fuel k : nat) (w : world)
    (payload data : bytes) (parse : bytes -> result A) :
  (forall j, (j < k)%nat ->
             timed_out (sock (length (sends w) + j)%nat payload) = true) ->
  sock (length (sends w) + k)%nat payload = Datagram data ->
  (k < 5)%nat -> (k < fuel)%nat ->
  (4 < length data <= 4096)%nat ->
  request (Ok payload) parse fuel sock w =
  Some ({| sends := sends w ++ repeat payload (S k); stdout := stdout w |}, parse data).
Proof.
  intros Hto Hd Hk Hfuel Hlen.
  assert (E : firstn 4096 data = data) by (apply firstn_all2; lia).
  rewrite (request_answered sock fuel k w payload data Hto Hd Hk Hfuel); rewrite E.
  - reflexivity.
  - intros C. rewrite C in Hlen. simpl in Hlen. lia.
  - intros [C _]. lia.
Qed.

(** X11: a reply of the wrong size is not reported as a failure of the
    exchange: a datagram that is not empty, is not the error layout and has
    not 82 bytes makes [sendIndividualTokenRequest] raise the [struct] error
    of the decoder, after the sends made so far and with nothing printed. *)
Theorem individual_request_unexpected_reply
    (sock : socket) (fuel k : nat) (w : world) (itr : IndividualTokenRequest.t)
    (payload data : bytes) :
  sendIndividualTokenRequest_payload itr = Ok payload ->
  (forall j, (j < k)%nat ->
             timed_out (sock (length (sends w) + j)%nat payload) = true) ->
  sock (length (sends w) + k)%nat payload = Datagram data ->
  (k < 5)%nat -> (k < fuel)%nat ->
  data <> [] -> ~ is_error_reply data -> length data <> 82%nat ->
  sendIndividualTokenRequest fuel sock itr w =
  Some ({| sends := sends w ++ repeat payload (S k); stdout := stdout w |},
        Raise StructError).
Proof.
  intros Hp Hto Hd Hk Hfuel Hne Hnot Hlen.
  destruct (firstn_reply_kind data 82 ltac:(lia) ltac:(lia) Hne Hnot Hlen)
    as [Hne' [Hnot' Hlen']].
  unfold sendIndividualTokenRequest. rewrite Hp.
  rewrite (request_answered sock fuel k w payload data Hto Hd Hk Hfuel) by assumption.
  rewrite itr_parse_not_82 by exact Hlen'. reflexivity.
Qed.

Lemma individual_request_unexpected_reply_witness :
  sendIndividualTokenRequest 5 (fun _ _ => Datagram [x00; x02; x00; x03])
    (IndividualTokenRequest.init (lit "alice") 42) world0 =
  Some ({| sends := [[x00; x01] ++ list_byte_of_string "alice" ++ repeat x20 7
                     ++ [x00; x00; x00; x2a]];
           stdout := [] |},
        Raise StructError).
Proof.
  apply (individual_request_unexpected_reply (fun _ _ => Datagram [x00; x02; x00; x03])
           5 0 world0 (IndividualTokenRequest.init (lit "alice") 42)
           ([x00; x01] ++ list_byte_of_string "alice" ++ repeat x20 7
            ++ [x00; x00; x00; x2a]) [x00; x02; x00; x03]).
  - reflexivity.
  - intros j Hj. lia.
  - reflexivity.
  - lia.
  - lia.
  - discriminate.
  - intros [_ H]. vm_compute in H. discriminate H.
  - simpl. lia.
Defined.

(** X12: the whole individual request.  When the payload is produced and the
    first datagram to arrive, in round [k] of at most five, has 82 bytes with
    ASCII id and token fields, [sendIndividualTokenRequest] returns the
    response read from it, having sent the same payload [k + 1] times and
    printed nothing. *)
Theorem individual_request_answered
    (sock : socket) (fuel k : nat) (w : world) (itr : IndividualTokenRequest.t)
    (payload data : bytes) :
  sendIndividualTokenRequest_payload itr = Ok payload ->
  (forall j, (j < k)%nat ->
             timed_out (sock (length (sends w) + j)%nat payload) = true) ->
  sock (length (sends w) + k)%nat payload = Datagram data ->
  (k < 5)%nat -> (k < fuel)%nat ->
  length data = 82%nat ->
  ascii_bytes (field data 2 12) -> ascii_bytes (field data 18 64) ->
  sendIndividualTokenRequest fuel sock itr w =
  Some ({| sends := sends w ++ repeat payload (S k); stdout := stdout w |},
        Ok (IndividualTokenResponse.init
              (from_be_signed (field data 0 2)) (strip (map Byte.to_N (field data 2 12)))
              (from_be_signed (field data 14 4)) (map Byte.to_N (field data 18 64)))).
Proof.
  intros Hp Hto Hd Hk Hfuel Hlen Hi Ht.
  assert (E : firstn 4096 data = data) by (apply firstn_all2; lia).
  unfold sendIndividualTokenRequest. rewrite Hp.
  rewrite (request_answered sock fuel k w payload data Hto Hd Hk Hfuel).
  - rewrite E, itr_parse_82 by exact Hlen.
    rewrite !decode_ascii_ok by assumption. reflexivity.
  - rewrite E. intros C. rewrite C in Hlen. discriminate Hlen.
  - rewrite E. intros [C _]. rewrite C in Hlen. discriminate Hlen.
Qed.

Lemma individual_request_answered_witness :
  sendIndividualTokenRequest 5
    (fun j _ => if (j <? 2)%nat then RecvTimeout else Datagram alice_reply)
    (IndividualTokenRequest.init (lit "alice") 42) world0 =
  Some ({| sends := repeat ([x00; x01] ++ list_byte_of_string "alice" ++ repeat x20 7
                            ++ [x00; x00; x00; x2a]) 3;
           stdout := [] |},
        Ok (IndividualTokenResponse.init 2 (lit "alice") 42
              (lit "T0K3N" ++ repeat 32%N 59))).
Proof.
  apply (individual_request_answered
           (fun j _ => if (j <? 2)%nat then RecvTimeout else Datagram alice_reply)
           5 2 world0 (IndividualTokenRequest.init (lit "alice") 42)
           ([x00; x01] ++ list_byte_of_string "alice" ++ repeat x20 7
            ++ [x00; x00; x00; x2a]) alice_reply).
  - reflexivity.
  - intros j Hj. simpl. destruct (Nat.ltb_spec j 2); [reflexivity|lia].
  - reflexivity.
  - lia.
  - lia.
  - reflexivity.
  - repeat constructor.
  - repeat constructor.
Defined.

Lemma gtr_parse_wrong_size (gtr : GroupTokenRequest.t) (res : bytes) :
  length res <> (68 + 80 * Z.to_nat (GroupTokenRequest.n gtr))%nat ->
  sendGroupTokenRequest_parse gtr res = Raise StructError.
Proof.
  intros H. unfold sendGroupTokenRequest_parse. rewrite unpack_wrong_size; [reflexivity|].
  cbv [calcsize map size list_sum fold_right]. lia.
Qed.

Lemma gtv_parse_wrong_size (gtv : GroupTokenValidation.t) (res : bytes) :
  length res <> (69 + 80 * Z.to_nat (GroupTokenValidation.n gtv))%nat ->
  sendGroupTokenValidation_parse gtv res = Raise StructError.
Proof.
  intros H. unfold sendGroupTokenValidation_parse.
  rewrite unpack_wrong_size; [reflexivity|].
  cbv [calcsize map size list_sum fold_right]. lia.
Qed.

Lemma request_large_reply {A} (payload : result bytes) (parse : bytes -> result A)
    (fuel : nat) (sock : socket) (w w' : world) (r : A) :
  (forall res, (length res <= 4096)%nat -> parse res = Raise StructError) ->
  request payload parse fuel sock w <> Some (w', Ok r).
Proof.
  intros Hparse. unfold request. destruct payload as [p|e]; [|discriminate].
  destruct (sendPayload_default fuel sock p w) as [[w1 [res|e]]|] eqn:E;
    try discriminate.
  apply sendPayload_ok_inv in E. destruct E as [_ [Hlen _]].
  rewrite Hparse by exact Hlen. discriminate.
Qed.

(** X13: a group of 51 members or more never gets its answer.  The reply to
    such a request has more than the 4096 bytes that [sendPayload] reads, so
    whatever the channel delivers, [sendGroupTokenRequest] and
    [sendGroupTokenValidation] do not return a response. *)
Theorem large_group_never_answered (fuel : nat) (sock : socket) (w w' : world) :
  (forall gtr r,
      51 <= GroupTokenRequest.n gtr ->
      sendGroupTokenRequest fuel sock gtr w <> Some (w', Ok r)) /\
  (forall gtv r,
      51 <= GroupTokenValidation.n gtv ->
      sendGroupTokenValidation fuel sock gtv w <> Some (w', Ok r)).
Proof.
  split.
  - intros gtr r Hn. unfold sendGroupTokenRequest. apply request_large_reply.
    intros res Hlen. apply gtr_parse_wrong_size. lia.
  - intros gtv r Hn. unfold sendGroupTokenValidation. apply request_large_reply.
    intros res Hlen. apply gtv_parse_wrong_size. lia.
Qed.

Lemma large_group_never_answered_witness :
  sendGroupTokenRequest 5 (fun _ _ => Datagram (repeat x61 4148))
    (GroupTokenRequest.init 51 []) world0
  <> Some ({| sends := [[x00; x05; x00; x33] ++ repeat x00 4080]; stdout := [] |},
           Ok (GroupTokenResponse.init 6 51 [] [])).
Proof.
  apply (proj1 (large_group_never_answered 5 (fun _ _ => Datagram (repeat x61 4148))
                  world0 _) (GroupTokenRequest.init 51 [])).
  simpl. lia.
Defined.

(** ** Round trips of the validations *)

(** X14: the individual validation and its status.  For a trimmed ASCII id of
    at most 12 characters, a 32-bit nonce and an ASCII token of at most 64
    characters, the status reply that carries the fields of the payload and a
    status byte decodes to the id, the nonce and the status, and to the token
    followed by null characters up to 64. *)
Theorem individual_validation_roundtrip (id token : str) (nonce st : Z) :
  ascii_str id -> (length id <= 12)%nat -> trimmed id ->
  int32 nonce ->
  ascii_str token -> (length token <= 64)%nat ->
  - 128 <= st < 128 ->
  exists payload,
    sendIndividualTokenValidation_payload (IndividualTokenValidation.init id nonce token)
    = Ok payload /\
    sendIndividualTokenValidation_parse (echo_reply 4 payload (to_be 1 st))
    = Ok (IndividualTokenStatus.init 4 id nonce
            (token ++ repeat 0%N (64 - length token)) st).
Proof.
  intros Hid Hlen Htr Hn Htk Htlen Hst.
  eexists. split; [apply itv_payload_ascii; assumption|].
  unfold echo_reply.
  change (skipn 2 ([x00; x03] ++ pack_s 12 (map byte_of_N (ljust id 12)) ++ to_be 4 nonce
                   ++ pack_s 64 (map byte_of_N token)))
    with (pack_s 12 (map byte_of_N (ljust id 12)) ++ to_be 4 nonce
          ++ pack_s 64 (map byte_of_N token)).
  rewrite <- !app_assoc.
  rewrite itv_parse_fields; try assumption.
  - rewrite pack_s_ljust by exact Hlen. rewrite id_field_roundtrip by assumption.
    rewrite pack_s_short by (rewrite length_map; exact Htlen).
    rewrite map_app, map_repeat, map_to_N_byte_of_N, length_map by exact Htk.
    reflexivity.
  - apply int16_small; lia.
  - apply length_pack_s.
  - apply length_pack_s.
  - apply ascii_bytes_pack_s, ascii_bytes_encoded, ascii_str_ljust. exact Hid.
  - apply ascii_bytes_pack_s, ascii_bytes_encoded. exact Htk.
Qed.

Lemma individual_validation_roundtrip_witness :
  exists payload,
    sendIndividualTokenValidation_payload
      (IndividualTokenValidation.init (lit "bob") 7 (lit "abc")) = Ok payload /\
    sendIndividualTokenValidation_parse (echo_reply 4 payload (to_be 1 (-1)))
    = Ok (IndividualTokenStatus.init 4 (lit "bob") 7 (lit "abc" ++ repeat 0%N 61) (-1)).
Proof.
  apply (individual_validation_roundtrip (lit "bob") (lit "abc") 7 (-1)).
  - repeat constructor.
  - simpl; lia.
  - reflexivity.
  - unfold int32; lia.
  - repeat constructor.
  - simpl; lia.
  - lia.
Defined.

Lemma pack_gtv_layout (t n : Z) (sasChunk tkb : bytes) :
  int16 t -> 0 <= n -> int16 n ->
  struct.pack [Fh; Fh; Fs (80 * n); Fs 64] [Int t; Int n; Bytes sasChunk; Bytes tkb] =
  Ok (to_be 2 t ++ to_be 2 n ++ pack_s (Z.to_nat (80 * n)) sasChunk ++ pack_s 64 tkb).
Proof.
  intros Ht Hn0 Hn. unfold pack.
  assert (E : valid [Fh; Fh; Fs (80 * n); Fs 64] = true).
  { cbv [valid forallb valid_code andb]. destruct (Z.leb_spec 0 (80 * n)); [reflexivity|lia]. }
  rewrite E. cbv [pack_items pack_item bind].
  rewrite !pack_h_ok by assumption. change (Z.to_nat 64) with 64%nat.
  rewrite app_nil_r. reflexivity.
Qed.

Lemma gtv_payload_ok (n : Z) (group : list sas) (token : str) :
  0 <= n <= 32767 -> Forall encodable group -> ascii_str token ->
  sendGroupTokenValidation_payload (GroupTokenValidation.init n group token) =
  Ok ([x00; x07] ++ to_be 2 n
      ++ pack_s (Z.to_nat (80 * n)) (concat (map sas_bytes group))
      ++ pack_s 64 (map byte_of_N token)).
Proof.
  intros Hn Hg Ht. unfold sendGroupTokenValidation_payload, GroupTokenValidation.init.
  cbn [GroupTokenValidation.group GroupTokenValidation.n GroupTokenValidation.type
       GroupTokenValidation.token].
  rewrite build_sasChunk_ok by exact Hg. rewrite encode_ascii_ok by exact Ht.
  cbv [bind]. cbn [app].
  rewrite pack_gtv_layout; [reflexivity|apply int16_small; lia|lia|apply int16_small; lia].
Qed.

Lemma unpack_gts_layout (t n st : Z) (chunk tkf : bytes) :
  0 <= n -> length chunk = Z.to_nat (80 * n) -> length tkf = 64%nat ->
  struct.unpack [Fh; Fh; Fs (80 * n); Fs 64; Fb]
    (to_be 2 t ++ to_be 2 n ++ chunk ++ tkf ++ to_be 1 st) =
  Ok [Int (from_be_signed (to_be 2 t)); Int (from_be_signed (to_be 2 n));
      Bytes chunk; Bytes tkf; Int (from_be_signed (to_be 1 st))].
Proof.
  intros Hn Hc Ht. unfold unpack.
  assert (E : valid [Fh; Fh; Fs (80 * n); Fs 64; Fb] = true).
  { cbv [valid forallb valid_code andb]. destruct (Z.leb_spec 0 (80 * n)); [reflexivity|lia]. }
  rewrite E.
  assert (L : (length (to_be 2 t ++ to_be 2 n ++ chunk ++ tkf ++ to_be 1 st)
               =? calcsize [Fh; Fh; Fs (80 * n); Fs 64; Fb])%nat = true).
  { apply Nat.eqb_eq. rewrite !length_app, !length_to_be, Hc, Ht.
    cbv [calcsize map size list_sum fold_right]. lia. }
  rewrite L. unpack_fields.
Qed.

(** What the decoder of the group status reads from the reply that carries
    the fields of the payload. *)
Lemma gtv_parse_roundtrip (group : list sas) (token : str) (st : Z) :
  Z.of_nat (length group) <= 32767 ->
  Forall fits group ->
  ascii_str token -> (length token <= 64)%nat ->
  - 128 <= st < 128 ->
  exists payload,
    sendGroupTokenValidation_payload
      (GroupTokenValidation.init (Z.of_nat (length group)) group token) = Ok payload /\
    length payload = (68 + 80 * length group)%nat /\
    sendGroupTokenValidation_parse
      (GroupTokenValidation.init (Z.of_nat (length group)) group token)
      (echo_reply 8 payload (to_be 1 st))
    = Ok (GroupTokenStatus.init 8 (Z.of_nat (length group)) (map null_padded group)
            (token ++ repeat 0%N (64 - length token)) st).
Proof.
  intros Hn Hg Ht Htlen Hst.
  set (n := Z.of_nat (length group)) in *.
  assert (Henc : Forall encodable group).
  { eapply Forall_impl; [|exact Hg]. intros [[i k] tk] H. apply H. }
  assert (Hlen : length (concat (map sas_bytes group)) = Z.to_nat (80 * n))
    by (rewrite length_concat_sas_bytes; lia).
  eexists. split; [apply gtv_payload_ok; [lia|exact Henc|exact Ht]|].
  rewrite pack_s_exact by exact Hlen. split.
  - rewrite !length_app, length_to_be, length_concat_sas_bytes, length_pack_s.
    simpl length. lia.
  - unfold echo_reply, sendGroupTokenValidation_parse, GroupTokenValidation.init.
    cbn [GroupTokenValidation.group GroupTokenValidation.n GroupTokenValidation.type
         GroupTokenValidation.token].
    change (skipn 2 ([x00; x07] ++ to_be 2 n ++ concat (map sas_bytes group)
                     ++ pack_s 64 (map byte_of_N token)))
      with (to_be 2 n ++ concat (map sas_bytes group) ++ pack_s 64 (map byte_of_N token)).
    rewrite <- !app_assoc.
    rewrite unpack_gts_layout by (try lia; try assumption; apply length_pack_s).
    cbv [bind].
    rewrite !unpack_h_pack by (apply int16_small; lia).
    rewrite (from_be_signed_to_be 1 st) by (try lia; exact Hst).
    replace n with (Z.of_nat (length (map sas_bytes group))) at 1
      by (rewrite length_map; reflexivity).
    rewrite sas_chunks_concat
      by (apply Forall_forall; intros c Hc; apply in_map_iff in Hc;
          destruct Hc as [m [<- _]]; apply length_sas_bytes).
    rewrite (parse_group_ok group Hg []). cbn [app].
    rewrite decode_ascii_ok by (apply ascii_bytes_pack_s, ascii_bytes_encoded; exact Ht).
    rewrite pack_s_short by (rewrite length_map; exact Htlen).
    rewrite map_app, map_repeat, map_to_N_byte_of_N, length_map by exact Ht.
    reflexivity.
Qed.

(** X15: the group validation and its status, end to end.  For a group of
    [n <= 50] members that fit and an ASCII group token of at most 64
    characters, the payload has [68 + 80 * n] bytes; when the status reply
    that carries its fields and a status byte is the first datagram to
    arrive, [sendGroupTokenValidation] returns the members in their order
    (tokens followed by null characters up to 64), the group token followed
    by null characters up to 64, and the status. *)
Theorem group_validation_roundtrip (group : list sas) (token : str) (st : Z) :
  (length group <= 50)%nat ->
  Forall fits group ->
  ascii_str token -> (length token <= 64)%nat ->
  - 128 <= st < 128 ->
  exists payload,
    sendGroupTokenValidation_payload
      (GroupTokenValidation.init (Z.of_nat (length group)) group token) = Ok payload /\
    length payload = (68 + 80 * length group)%nat /\
    forall (sock : socket) (fuel k : nat) (w : world),
      (forall j, (j < k)%nat ->
                 timed_out (sock (length (sends w) + j)%nat payload) = true) ->
      sock (length (sends w) + k)%nat payload
      = Datagram (echo_reply 8 payload (to_be 1 st)) ->
      (k < 5)%nat -> (k < fuel)%nat ->
      sendGroupTokenValidation fuel sock
        (GroupTokenValidation.init (Z.of_nat (length group)) group token) w
      = Some ({| sends := sends w ++ repeat payload (S k); stdout := stdout w |},
              Ok (GroupTokenStatus.init 8 (Z.of_nat (length group))
                    (map null_padded group)
                    (token ++ repeat 0%N (64 - length token)) st)).
Proof.
  intros Hn Hg Ht Htlen Hst.
  destruct (gtv_parse_roundtrip group token st ltac:(lia) Hg Ht Htlen Hst)
    as [payload [H1 [H2 H3]]].
  exists payload. split; [exact H1|]. split; [exact H2|].
  intros sock fuel k w Hto Hd Hk Hfuel.
  unfold sendGroupTokenValidation. rewrite H1.
  rewrite (request_answered_whole sock fuel k w payload
             (echo_reply 8 payload (to_be 1 st))) by
    (try assumption; unfold echo_reply;
     rewrite !length_app, !length_to_be, length_skipn, H2; lia).
  rewrite H3. reflexivity.
Qed.

Lemma group_validation_roundtrip_witness :
  exists payload,
    sendGroupTokenValidation_payload
      (GroupTokenValidation.init 1 [(lit "bob", 1, lit "tokA")] (lit "gtok")) = Ok payload /\
    length payload = 148%nat /\
    sendGroupTokenValidation 5
      (fun j p => if (j <? 1)%nat then RecvTimeout
                  else Datagram (echo_reply 8 p (to_be 1 1)))
      (GroupTokenValidation.init 1 [(lit "bob", 1, lit "tokA")] (lit "gtok")) world0
    = Some ({| sends := [payload; payload]; stdout := [] |},
            Ok (GroupTokenStatus.init 8 1 [(lit "bob", 1, lit "tokA" ++ repeat 0%N 60)]
                  (lit "gtok" ++ repeat 0%N 60) 1)).
Proof.
  destruct (group_validation_roundtrip [(lit "bob", 1, lit "tokA")] (lit "gtok") 1)
    as [payload [H1 [H2 H3]]].
  - simpl; lia.
  - repeat (apply Forall_cons || apply Forall_nil);
      (split; [split; [|split]|split; [|split]]);
      try (unfold int32; lia); try (simpl; lia); try reflexivity; repeat constructor.
  - repeat constructor.
  - simpl; lia.
  - lia.
  - exists payload. split; [exact H1|]. split; [exact H2|].
    apply (H3 (fun j p => if (j <? 1)%nat then RecvTimeout
                          else Datagram (echo_reply 8 p (to_be 1 1))) 5%nat 1%nat world0).
    + intros j Hj. simpl. destruct (Nat.ltb_spec j 1); [reflexivity|lia].
    + reflexivity.
    + lia.
    + lia.
Defined.

(** ** The authentication strings *)

Lemma join_cons (sep x : str) (l : list str) :
  l <> [] -> join sep (x :: l) = x ++ sep ++ join sep l.
Proof. destruct l; [contradiction|reflexivity]. Qed.

Lemma join_plus (l : list str) (tail : str) :
  l <> [] ->
  join (lit "+") l ++ lit "+" ++ tail = concat (map (fun x => x ++ lit "+") l) ++ tail.
Proof.
  induction l as [|x l IH]; [contradiction|]. intros _.
  destruct l as [|y l].
  - simpl join. simpl concat. rewrite app_nil_r, <- app_assoc. reflexivity.
  - rewrite join_cons by discriminate.
    rewrite <- !app_assoc. rewrite IH by discriminate.
    cbn [map concat]. rewrite <- !app_assoc. reflexivity.
Qed.

(** X16: the shape of a GAS.  For a group that is not empty it is the text
    [id:nonce:token] of each member in order, each followed by [+], then the
    group token; for the empty group it is [+] and the group token, so it
    starts with the separator. *)
Theorem getStringGAS_shape (t n : Z) (group : list sas) (token : str) :
  (group <> [] ->
   GroupTokenResponse.getStringGAS (GroupTokenResponse.init t n group token)
   = concat (map (fun m => sas_string m ++ lit "+") group) ++ token) /\
  (group = [] ->
   GroupTokenResponse.getStringGAS (GroupTokenResponse.init t n group token)
   = lit "+" ++ token).
Proof.
  split.
  - intros Hne. unfold GroupTokenResponse.getStringGAS.
    cbn [GroupTokenResponse.group GroupTokenResponse.token GroupTokenResponse.init].
    rewrite join_plus by (destruct group; [contradiction|discriminate]).
    rewrite map_map. reflexivity.
  - intros ->. reflexivity.
Qed.

Lemma getStringGAS_shape_witness :
  GroupTokenResponse.getStringGAS
    (GroupTokenResponse.init 6 2 [(lit "bob", 1, lit "tA"); (lit "carl", -2, lit "tB")]
                             (lit "G"))
  = lit "bob:1:tA+carl:-2:tB+G".
Proof.
  apply (proj1 (getStringGAS_shape 6 2
                  [(lit "bob", 1, lit "tA"); (lit "carl", -2, lit "tB")] (lit "G"))).
  discriminate.
Defined.

(** * The command line and the connection *)

Lemma str_eqb_eq (a b : str) : str_eqb a b = true <-> a = b.
Proof.
  revert b. induction a as [|c a IH]; intros [|d b]; simpl;
    try (split; [discriminate|discriminate]); [tauto|].
  rewrite andb_true_iff, N.eqb_eq, IH. split.
  - intros [-> ->]. reflexivity.
  - intros H. injection H as -> ->. auto.
Qed.

(** X17: which command lines [validateArgs] lets through: [itr] with exactly
    two options, [itv] and [gtv] with exactly one, and [gtr] with any number
    of options other than one, so a [gtr] line whose [N] differs from the
    number of SAS given is accepted. *)
Theorem validateArgs_accepts (args : Namespace.t) :
  validateArgs args = None <->
  (Namespace.command args = lit "itr" -> length (Namespace.options args) = 2%nat) /\
  (Namespace.command args = lit "itv" -> length (Namespace.options args) = 1%nat) /\
  (Namespace.command args = lit "gtr" -> length (Namespace.options args) <> 1%nat) /\
  (Namespace.command args = lit "gtv" -> length (Namespace.options args) = 1%nat).
Proof.
  unfold validateArgs. cbv zeta.
  destruct (str_eqb (Namespace.command args) (lit "itr")) eqn:E1.
  { apply str_eqb_eq in E1. rewrite E1.
    destruct (Nat.eqb_spec (length (Namespace.options args)) 2); simpl; split;
      try discriminate; intros; repeat split; try discriminate; auto.
    destruct H as [H _]. exfalso. auto. }
  destruct (str_eqb (Namespace.command args) (lit "itv")) eqn:E2.
  { apply str_eqb_eq in E2. rewrite E2.
    destruct (Nat.eqb_spec (length (Namespace.options args)) 1); simpl; split;
      try discriminate; intros; repeat split; try discriminate; auto.
    destruct H as [_ [H _]]. exfalso. auto. }
  destruct (str_eqb (Namespace.command args) (lit "gtr")) eqn:E3.
  { apply str_eqb_eq in E3. rewrite E3.
    destruct (Nat.eqb_spec (length (Namespace.options args)) 1); simpl; split;
      try discriminate; intros; repeat split; try discriminate; auto.
    destruct H as [_ [_ [H _]]]. exfalso. apply H; auto. }
  destruct (str_eqb (Namespace.command args) (lit "gtv")) eqn:E4.
  { apply str_eqb_eq in E4. rewrite E4.
    destruct (Nat.eqb_spec (length (Namespace.options args)) 1); simpl; split;
      try discriminate; intros; repeat split; try discriminate; auto.
    destruct H as [_ [_ [_ H]]]. exfalso. auto. }
  split; [|reflexivity]. intros _.
  repeat split; intros H; apply str_eqb_eq in H; congruence.
Qed.

Lemma validateArgs_accepts_witness :
  validateArgs {| Namespace.host := lit "localhost"; Namespace.port := 51001;
                  Namespace.command := lit "gtr";
                  Namespace.options := [lit "5"; lit "bob:1:tokA"] |} = None.
Proof.
  apply (proj2 (validateArgs_accepts _)).
  repeat split; intros H; try discriminate H. simpl. lia.
Defined.

Lemma initConnection_loop_fails (infos : list addrinfo) :
  Forall fails infos ->
  forall (i : nat) (w : world) (closed : list nat),
    initConnection_loop infos i w closed =
    ({| sends := sends w; stdout := stdout w ++ map warning infos |},
     closed ++ unconnected infos i, None).
Proof.
  induction 1 as [|res infos Hres Hall IH]; intros i w closed.
  - destruct w. simpl. rewrite !app_nil_r. reflexivity.
  - unfold fails in Hres. cbn [initConnection_loop unconnected map]. unfold warning at 1.
    destruct (tried res) as [msg|msg|]; [| |contradiction];
      rewrite IH; unfold print; cbn [sends stdout]; rewrite <- !app_assoc; reflexivity.
Qed.

Lemma initConnection_loop_app (pre : list addrinfo) :
  Forall fails pre ->
  forall (rest : list addrinfo) (i : nat) (w : world) (closed : list nat),
    initConnection_loop (pre ++ rest) i w closed =
    initConnection_loop rest (i + length pre)
      {| sends := sends w; stdout := stdout w ++ map warning pre |}
      (closed ++ unconnected pre i).
Proof.
  induction 1 as [|res pre Hres Hall IH]; intros rest i w closed.
  - destruct w. simpl. rewrite !app_nil_r, Nat.add_0_r. reflexivity.
  - unfold fails in Hres. cbn [app initConnection_loop unconnected map length].
    unfold warning at 1.
    destruct (tried res) as [msg|msg|]; [| |contradiction];
      rewrite IH; unfold print; cbn [sends stdout]; rewrite <- !app_assoc;
      replace (S i + length pre)%nat with (i + S (length pre))%nat by lia; reflexivity.
Qed.

Lemma unconnected_bounds (infos : list addrinfo) :
  forall i, Forall (fun j => (i <= j < i + length infos)%nat) (unconnected infos i).
Proof.
  induction infos as [|res infos IH]; intros i; [constructor|].
  cbn [unconnected length].
  assert (H : Forall (fun j => (i <= j < i + S (length infos))%nat)
                     (unconnected infos (S i))).
  { eapply Forall_impl; [|apply IH]. cbv beta. intros j Hj. lia. }
  destruct (tried res); [exact H| |exact H].
  constructor; [lia|exact H].
Qed.

(** X18: [initConnection] returns the first entry of the address list that
    connects.  The entries before it get one warning each, in order, and
    every socket that was created for them is closed; the socket returned is
    not among the closed ones, and the entries after it are not tried. *)
Theorem initConnection_first_connects
    (pre post : list addrinfo) (res : addrinfo) (w : world) :
  Forall fails pre ->
  tried res = Connects ->
  initConnection (pre ++ res :: post) w =
  ({| sends := sends w; stdout := stdout w ++ map warning pre |},
   unconnected pre 0, Ok (length pre)) /\
  ~ In (length pre) (unconnected pre 0).
Proof.
  intros Hpre Hres. split.
  - unfold initConnection. rewrite initConnection_loop_app by exact Hpre.
    cbn [initConnection_loop]. rewrite Hres. reflexivity.
  - intros Hin. pose proof (unconnected_bounds pre 0) as B.
    rewrite Forall_forall in B. specialize (B _ Hin). lia.
Qed.

Lemma initConnection_first_connects_witness :
  initConnection
    [ {| sa := lit "::1"; tried := CreateFails (lit "no v6") |};
      {| sa := lit "10.0.0.1"; tried := ConnectFails (lit "refused") |};
      {| sa := lit "10.0.0.2"; tried := Connects |};
      {| sa := lit "10.0.0.3"; tried := Connects |} ] world0 =
  ({| sends := [];
      stdout := [lit "WARNING: Attempt at creating socket failed. no v6";
                 lit "WARNING: Attempt at connecting socket to 10.0.0.1 failed. refused"] |},
   [1%nat], Ok 2%nat).
Proof.
  apply (initConnection_first_connects
           [ {| sa := lit "::1"; tried := CreateFails (lit "no v6") |};
             {| sa := lit "10.0.0.1"; tried := ConnectFails (lit "refused") |} ]
           [ {| sa := lit "10.0.0.3"; tried := Connects |} ]
           {| sa := lit "10.0.0.2"; tried := Connects |} world0).
  - repeat constructor; discriminate.
  - reflexivity.
Defined.

(** X19: when no entry of the address list connects, and in particular when
    the list is empty, [initConnection] prints the warnings of all entries,
    then the error line, closes every socket it created and exits with code
    1. *)
Theorem initConnection_no_socket (infos : list addrinfo) (w : world) :
  Forall fails infos ->
  initConnection infos w =
  ({| sends := sends w;
      stdout := stdout w ++ map warning infos
                ++ [lit "ERROR: Could not open a valid socket"] |},
   unconnected infos 0, Raise (SystemExit 1)).
Proof.
  intros H. unfold initConnection. rewrite initConnection_loop_fails by exact H.
  unfold print. cbn [sends stdout app]. rewrite <- app_assoc. reflexivity.
Qed.

Lemma initConnection_no_socket_witness :
  initConnection
    [ {| sa := lit "::1"; tried := CreateFails (lit "no v6") |};
      {| sa := lit "10.0.0.1"; tried := ConnectFails (lit "refused") |};
      {| sa := lit "10.0.0.2"; tried := ConnectFails (lit "unreachable") |} ] world0 =
  ({| sends := [];
      stdout := [lit "WARNING: Attempt at creating socket failed. no v6";
                 lit "WARNING: Attempt at connecting socket to 10.0.0.1 failed. refused";
                 lit "WARNING: Attempt at connecting socket to 10.0.0.2 failed. unreachable";
                 lit "ERROR: Could not open a valid socket"] |},
   [1%nat; 2%nat], Raise (SystemExit 1)).
Proof.
  apply (initConnection_no_socket
           [ {| sa := lit "::1"; tried := CreateFails (lit "no v6") |};
             {| sa := lit "10.0.0.1"; tried := ConnectFails (lit "refused") |};
             {| sa := lit "10.0.0.2"; tried := ConnectFails (lit "unreachable") |} ]
           world0).
  repeat constructor; discriminate.
Defined.

(** * What the individual decoders guarantee *)

Lemma from_be_signed_two (x : bytes) : length x = 2%nat -> int16 (from_be_signed x).
Proof.
  intros H. unfold from_be_signed, int16. cbv zeta. rewrite H.
  pose proof (from_be_bound x) as B. rewrite H in B.
  change (256 ^ Z.of_nat 2) with 65536 in B.
  change (2 ^ (8 * Z.of_nat 2 - 1)) with 32768.
  change (2 ^ (8 * Z.of_nat 2)) with 65536.
  change (2 ^ 15) with 32768.
  destruct (Z.ltb_spec (from_be x) 32768); lia.
Qed.

Lemma from_be_signed_one (x : bytes) : length x = 1%nat -> - 128 <= from_be_signed x < 128.
Proof.
  intros H. unfold from_be_signed. cbv zeta. rewrite H.
  pose proof (from_be_bound x) as B. rewrite H in B.
  change (256 ^ Z.of_nat 1) with 256 in B.
  change (2 ^ (8 * Z.of_nat 1 - 1)) with 128.
  change (2 ^ (8 * Z.of_nat 1)) with 256.
  destruct (Z.ltb_spec (from_be x) 128); lia.
Qed.

(** X20: what every decoded individual response and status satisfies,
    whatever the reply: the reply had exactly 82 (83) bytes, the id is
    trimmed, the token has exactly 64 ASCII characters, the type is a signed
    16-bit number, the nonce a signed 32-bit one and the status a signed
    byte. *)
Theorem individual_decoders_invariant (res : bytes) :
  (forall r, sendIndividualTokenRequest_parse res = Ok r ->
             length res = 82%nat /\
             trimmed (IndividualTokenResponse.id r) /\
             length (IndividualTokenResponse.token r) = 64%nat /\
             ascii_str (IndividualTokenResponse.token r) /\
             int16 (IndividualTokenResponse.type r) /\
             int32 (IndividualTokenResponse.nonce r)) /\
  (forall s, sendIndividualTokenValidation_parse res = Ok s ->
             length res = 83%nat /\
             trimmed (IndividualTokenStatus.id s) /\
             length (IndividualTokenStatus.token s) = 64%nat /\
             ascii_str (IndividualTokenStatus.token s) /\
             int16 (IndividualTokenStatus.type s) /\
             int32 (IndividualTokenStatus.nonce s) /\
             - 128 <= IndividualTokenStatus.status s < 128).
Proof.
  split.
  - intros r H.
    destruct (Nat.eq_dec (length res) 82) as [L|L];
      [|rewrite itr_parse_not_82 in H by exact L; discriminate H].
    rewrite itr_parse_82 in H by exact L. cbv [bind] in H.
    destruct (decode_ascii (field res 2 12)) as [i|e]; [|discriminate H].
    destruct (decode_ascii (field res 18 64)) as [tk|e] eqn:Ht; [|discriminate H].
    assert (E : r = IndividualTokenResponse.init (from_be_signed (field res 0 2))
                      (strip i) (from_be_signed (field res 14 4)) tk) by congruence.
    subst r. apply decode_ascii_ok_inv in Ht. destruct Ht as [-> Ha].
    cbn [IndividualTokenResponse.init IndividualTokenResponse.id
         IndividualTokenResponse.token IndividualTokenResponse.type
         IndividualTokenResponse.nonce].
    split; [exact L|]. split; [apply strip_trimmed|].
    split; [rewrite length_map; apply length_field; lia|]. split; [exact Ha|].
    split; [apply from_be_signed_two|apply from_be_signed_four]; apply length_field; lia.
  - intros s H.
    destruct (Nat.eq_dec (length res) 83) as [L|L];
      [|rewrite itv_parse_not_83 in H by exact L; discriminate H].
    rewrite itv_parse_83 in H by exact L. cbv [bind] in H.
    destruct (decode_ascii (field res 2 12)) as [i|e]; [|discriminate H].
    destruct (decode_ascii (field res 18 64)) as [tk|e] eqn:Ht; [|discriminate H].
    assert (E : s = IndividualTokenStatus.init (from_be_signed (field res 0 2))
                      (strip i) (from_be_signed (field res 14 4)) tk
                      (from_be_signed (field res 82 1))) by congruence.
    subst s. apply decode_ascii_ok_inv in Ht. destruct Ht as [-> Ha].
    cbn [IndividualTokenStatus.init IndividualTokenStatus.id
         IndividualTokenStatus.token IndividualTokenStatus.type
         IndividualTokenStatus.nonce IndividualTokenStatus.status].
    split; [exact L|]. split; [apply strip_trimmed|].
    split; [rewrite length_map; apply length_field; lia|]. split; [exact Ha|].
    split; [apply from_be_signed_two; apply length_field; lia|].
    split; [apply from_be_signed_four|apply from_be_signed_one]; apply length_field; lia.
Qed.

Lemma individual_decoders_invariant_witness :
  sendIndividualTokenRequest_parse alice_reply
  = Ok (IndividualTokenResponse.init 2 (lit "alice") 42 (lit "T0K3N" ++ repeat 32%N 59)) /\
  length alice_reply = 82%nat /\ trimmed (lit "alice") /\
  length (lit "T0K3N" ++ repeat 32%N 59) = 64%nat.
Proof.
  split; [reflexivity|].
  destruct (proj1 (individual_decoders_invariant alice_reply)
              (IndividualTokenResponse.init 2 (lit "alice") 42
                 (lit "T0K3N" ++ repeat 32%N 59)) eq_refl) as [H1 [H2 [H3 _]]].
  split; [exact H1|]. split; [exact H2 | exact H3].
Defined.

(** * The padding of the fields and the round trip of a group *)

Lemma sas_bytes_padded (m : sas) : within_fields m -> sas_bytes m = padded_member m.
Proof.
  destruct m as [[i k] tk]. intros [_ [Hi Ht]]. unfold sas_bytes, padded_member.
  rewrite pack_s_ljust by exact Hi.
  rewrite pack_s_short by (rewrite length_map; exact Ht).
  rewrite length_map. reflexivity.
Qed.

Lemma within_fields_encodable (group : list sas) :
  Forall within_fields group -> Forall encodable group.
Proof.
  intros H. eapply Forall_impl; [|exact H]. intros [[i k] tk] Hm. apply Hm.
Qed.

Lemma map_sas_bytes_padded (group : list sas) :
  Forall within_fields group -> map sas_bytes group = map padded_member group.
Proof.
  induction 1 as [|m group Hm Hg IH]; [reflexivity|].
  cbn [map]. rewrite IH, sas_bytes_padded by exact Hm. reflexivity.
Qed.

Lemma unpack_sas_fields (k : Z) (idf tkf : bytes) :
  int32 k -> length idf = 12%nat -> length tkf = 64%nat ->
  ascii_bytes idf -> ascii_bytes tkf ->
  unpack_sas (idf ++ to_be 4 k ++ tkf) =
  Ok (strip (map Byte.to_N idf), k, map Byte.to_N tkf).
Proof.
  intros Hk Hi Ht Hai Hat. unfold unpack_sas.
  rewrite unpack_sas_layout by assumption. cbv [bind].
  rewrite !decode_ascii_ok by assumption.
  rewrite unpack_i_pack by exact Hk. reflexivity.
Qed.

(** C2, as amended: in every request record with an ASCII id of at most 12
    characters, a nonce in the signed 32-bit range and an ASCII token of at
    most 64 characters (the individual request and validation, each member
    of a group request and of a group validation, and the group token of a
    group validation) the id is sent followed by spaces up to 12 bytes and
    the token followed by null bytes, not spaces, up to 64 bytes; on decode
    (individual response and status, each member of a group reply) the id
    field is stripped, which gives back a trimmed id, and the token is the 64
    characters of its field as they are. *)
Theorem ascii_fields_padding :
  (forall (id token : str) (nonce : Z),
      ascii_str id -> (length id <= 12)%nat ->
      ascii_str token -> (length token <= 64)%nat -> int32 nonce ->
      sendIndividualTokenRequest_payload (IndividualTokenRequest.init id nonce)
      = Ok ([x00; x01] ++ (map byte_of_N id ++ repeat x20 (12 - length id))
            ++ to_be 4 nonce) /\
      sendIndividualTokenValidation_payload
        (IndividualTokenValidation.init id nonce token)
      = Ok ([x00; x03] ++ (map byte_of_N id ++ repeat x20 (12 - length id))
            ++ to_be 4 nonce
            ++ (map byte_of_N token ++ repeat x00 (64 - length token)))) /\
  (forall m : sas, within_fields m -> pack_sas m = Ok (padded_member m)) /\
  (forall (group : list sas) (token : str),
      Z.of_nat (length group) <= 32767 ->
      Forall within_fields group ->
      ascii_str token -> (length token <= 64)%nat ->
      sendGroupTokenRequest_payload
        (GroupTokenRequest.init (Z.of_nat (length group)) group)
      = Ok ([x00; x05] ++ to_be 2 (Z.of_nat (length group))
            ++ concat (map padded_member group)) /\
      sendGroupTokenValidation_payload
        (GroupTokenValidation.init (Z.of_nat (length group)) group token)
      = Ok ([x00; x07] ++ to_be 2 (Z.of_nat (length group))
            ++ concat (map padded_member group)
            ++ (map byte_of_N token ++ repeat x00 (64 - length token)))) /\
  (forall (t k st : Z) (idf tkf : bytes),
      int16 t -> int32 k -> - 128 <= st < 128 ->
      length idf = 12%nat -> length tkf = 64%nat ->
      ascii_bytes idf -> ascii_bytes tkf ->
      sendIndividualTokenRequest_parse (to_be 2 t ++ idf ++ to_be 4 k ++ tkf)
      = Ok (IndividualTokenResponse.init t (strip (map Byte.to_N idf)) k
                                         (map Byte.to_N tkf)) /\
      sendIndividualTokenValidation_parse
        (to_be 2 t ++ idf ++ to_be 4 k ++ tkf ++ to_be 1 st)
      = Ok (IndividualTokenStatus.init t (strip (map Byte.to_N idf)) k
                                       (map Byte.to_N tkf) st) /\
      unpack_sas (idf ++ to_be 4 k ++ tkf)
      = Ok (strip (map Byte.to_N idf), k, map Byte.to_N tkf)) /\
  (forall id : str,
      ascii_str id -> (length id <= 12)%nat -> trimmed id ->
      strip (map Byte.to_N (map byte_of_N id ++ repeat x20 (12 - length id))) = id).
Proof.
  split; [|split; [|split; [|split]]].
  - intros id token nonce Hid Hlen Htk Htlen Hn. split.
    + rewrite itr_payload_ascii by assumption.
      rewrite pack_s_ljust by exact Hlen. reflexivity.
    + rewrite itv_payload_ascii by assumption.
      rewrite pack_s_ljust by exact Hlen.
      rewrite pack_s_short by (rewrite length_map; exact Htlen).
      rewrite length_map. reflexivity.
  - intros m Hm. rewrite <- sas_bytes_padded by exact Hm.
    apply pack_sas_ok. destruct m as [[i k] tk]. apply Hm.
  - intros group token Hn Hg Ht Htlen.
    assert (Hlen : length (concat (map sas_bytes group))
                   = Z.to_nat (80 * Z.of_nat (length group)))
      by (rewrite length_concat_sas_bytes; lia).
    pose proof (within_fields_encodable group Hg) as Henc.
    rewrite <- (map_sas_bytes_padded group Hg). split.
    + rewrite gtr_payload_ok by (try lia; exact Henc).
      rewrite pack_s_exact by exact Hlen. reflexivity.
    + rewrite gtv_payload_ok by (try lia; assumption).
      rewrite pack_s_exact by exact Hlen.
      rewrite pack_s_short by (rewrite length_map; exact Htlen).
      rewrite length_map. reflexivity.
  - intros t k st idf tkf Ht Hk Hst Hi Htk Hai Hat. split; [|split].
    + apply itr_parse_fields; assumption.
    + apply itv_parse_fields; assumption.
    + apply unpack_sas_fields; assumption.
  - apply id_field_roundtrip.
Qed.

Lemma ascii_fields_padding_witness :
  sendIndividualTokenValidation_payload
    (IndividualTokenValidation.init (lit "bob") 7 (lit "abc"))
  = Ok ([x00; x03] ++ (list_byte_of_string "bob" ++ repeat x20 9)
        ++ [x00; x00; x00; x07] ++ (list_byte_of_string "abc" ++ repeat x00 61)) /\
  pack_sas (lit "carl", 2, lit "tokB")
  = Ok ((list_byte_of_string "carl" ++ repeat x20 8) ++ [x00; x00; x00; x02]
        ++ (list_byte_of_string "tokB" ++ repeat x00 60)) /\
  sendGroupTokenValidation_payload
    (GroupTokenValidation.init 1 [(lit "carl", 2, lit "tokB")] (lit "gtok"))
  = Ok ([x00; x07] ++ [x00; x01]
        ++ concat [(list_byte_of_string "carl" ++ repeat x20 8) ++ [x00; x00; x00; x02]
                   ++ (list_byte_of_string "tokB" ++ repeat x00 60)]
        ++ (list_byte_of_string "gtok" ++ repeat x00 60)) /\
  sendIndividualTokenRequest_parse alice_reply
  = Ok (IndividualTokenResponse.init 2 (lit "alice") 42 (lit "T0K3N" ++ repeat 32%N 59)) /\
  unpack_sas ((list_byte_of_string "carl" ++ repeat x20 8) ++ [x00; x00; x00; x02]
              ++ (list_byte_of_string "tokB" ++ repeat x20 60))
  = Ok (lit "carl", 2, lit "tokB" ++ repeat 32%N 60) /\
  strip (lit "bob" ++ repeat 32%N 9) = lit "bob".
Proof.
  destruct ascii_fields_padding as [HA [HB [HC [HD HE]]]].
  split; [|split; [|split; [|split; [|split]]]].
  - apply (HA (lit "bob") (lit "abc") 7).
    + repeat constructor.
    + simpl; lia.
    + repeat constructor.
    + simpl; lia.
    + unfold int32; lia.
  - apply (HB (lit "carl", 2, lit "tokB")).
    split; [split; [|split]|split]; try (unfold int32; lia); try (simpl; lia);
      repeat constructor.
  - apply (HC [(lit "carl", 2, lit "tokB")] (lit "gtok")).
    + simpl; lia.
    + constructor; [|constructor].
      split; [split; [|split]|split]; try (unfold int32; lia); try (simpl; lia);
        repeat constructor.
    + repeat constructor.
    + simpl; lia.
  - apply (HD 2 42 0 (list_byte_of_string "alice" ++ repeat x20 7)
              (list_byte_of_string "T0K3N" ++ repeat x20 59)).
    + unfold int16; lia.
    + unfold int32; lia.
    + lia.
    + reflexivity.
    + reflexivity.
    + repeat constructor.
    + repeat constructor.
  - apply (HD 0 2 0 (list_byte_of_string "carl" ++ repeat x20 8)
              (list_byte_of_string "tokB" ++ repeat x20 60)).
    + unfold int16; lia.
    + unfold int32; lia.
    + lia.
    + reflexivity.
    + reflexivity.
    + repeat constructor.
    + repeat constructor.
  - apply (HE (lit "bob")).
    + repeat constructor.
    + simpl; lia.
    + reflexivity.
Defined.

(** C3, as amended: for a group of [n <= 50] members that fit (trimmed ASCII
    ids of at most 12 characters, nonces in the 32-bit range, ASCII tokens of
    at most 64 characters) the payload has [4 + 80 * n] bytes; when the
    matching success reply is the first datagram to arrive,
    [sendGroupTokenRequest] returns the members in their order, each with its
    id and nonce and with its token filled with null characters up to 64; the
    triples are the original ones when every token has exactly 64
    characters.  (Beyond 50 members the reply is longer than the 4096 bytes
    that are read.) *)
Theorem group_encode_decode (group : list sas) (token : bytes) :
  (length group <= 50)%nat ->
  Forall fits group ->
  length token = 64%nat -> ascii_bytes token ->
  exists (payload : bytes) (r : GroupTokenResponse.t),
    sendGroupTokenRequest_payload
      (GroupTokenRequest.init (Z.of_nat (length group)) group) = Ok payload /\
    length payload = (4 + 80 * length group)%nat /\
    sendGroupTokenRequest_parse
      (GroupTokenRequest.init (Z.of_nat (length group)) group)
      (success_reply payload token) = Ok r /\
    (forall (sock : socket) (fuel k : nat) (w : world),
        (forall j, (j < k)%nat ->
                   timed_out (sock (length (sends w) + j)%nat payload) = true) ->
        sock (length (sends w) + k)%nat payload
        = Datagram (success_reply payload token) ->
        (k < 5)%nat -> (k < fuel)%nat ->
        sendGroupTokenRequest fuel sock
          (GroupTokenRequest.init (Z.of_nat (length group)) group) w
        = Some ({| sends := sends w ++ repeat payload (S k); stdout := stdout w |},
                Ok r)) /\
    GroupTokenResponse.type r = 6 /\
    GroupTokenResponse.group r = map null_padded group /\
    (Forall (fun m : sas => length (snd m) = 64%nat) group ->
     GroupTokenResponse.group r = group).
Proof.
  intros Hn Hg Ht Ha.
  destruct (group_roundtrip group token ltac:(lia) Hg Ht Ha) as [payload [H1 [H2 H3]]].
  exists payload. eexists. split; [exact H1|]. split; [exact H2|].
  split; [exact H3|]. split; [|split; [reflexivity|split; [reflexivity|]]].
  - intros sock fuel k w Hto Hd Hk Hfuel.
    unfold sendGroupTokenRequest. rewrite H1.
    rewrite (request_answered_whole sock fuel k w payload (success_reply payload token))
      by (try assumption; unfold success_reply;
          rewrite !length_app, length_skipn, H2, Ht; simpl length; lia).
    rewrite H3. reflexivity.
  - intros Hfull. simpl. apply null_padded_full. exact Hfull.
Qed.

Lemma group_encode_decode_witness :
  exists (payload : bytes) (r : GroupTokenResponse.t),
    sendGroupTokenRequest_payload
      (GroupTokenRequest.init 2 [(lit "bob", 1, lit "tokA"); (lit "carl", 2, lit "tokB")])
    = Ok payload /\
    length payload = 164%nat /\
    sendGroupTokenRequest 5
      (fun j p => if (j <? 1)%nat then RecvTimeout
                  else Datagram (success_reply p (repeat x61 64)))
      (GroupTokenRequest.init 2 [(lit "bob", 1, lit "tokA"); (lit "carl", 2, lit "tokB")])
      world0
    = Some ({| sends := [payload; payload]; stdout := [] |}, Ok r) /\
    GroupTokenResponse.group r =
    [(lit "bob", 1, lit "tokA" ++ repeat 0%N 60);
     (lit "carl", 2, lit "tokB" ++ repeat 0%N 60)].
Proof.
  destruct (group_encode_decode
              [(lit "bob", 1, lit "tokA"); (lit "carl", 2, lit "tokB")] (repeat x61 64))
    as [payload [r [H1 [H2 [_ [H4 [_ [H6 _]]]]]]]].
  - simpl; lia.
  - repeat (apply Forall_cons || apply Forall_nil);
      (split; [split; [|split]|split; [|split]]);
      try (unfold int32; lia); try (simpl; lia); try reflexivity; repeat constructor.
  - reflexivity.
  - repeat constructor.
  - exists payload, r. split; [exact H1|]. split; [exact H2|]. split; [|exact H6].
    apply (H4 (fun j p => if (j <? 1)%nat then RecvTimeout
                          else Datagram (success_reply p (repeat x61 64)))
              5%nat 1%nat world0).
    + intros j Hj. simpl. destruct (Nat.ltb_spec j 1); [reflexivity|lia].
    + reflexivity.
    + lia.
    + lia.
Defined.

(** C3 as worded fails twice.  On the group of the scenario the members read
    back from the matching 228-byte reply are not the original triples; and
    for 51 members, each with a token of 64 characters, the matching reply
    has 4148 bytes, of which 4096 are read, so that decoding raises. *)
Lemma group_roundtrip_counterexample :
  (exists (payload : bytes) (r : GroupTokenResponse.t),
      sendGroupTokenRequest_payload
        (GroupTokenRequest.init 2 [(lit "bob", 1, lit "tokA"); (lit "carl", 2, lit "tokB")])
      = Ok payload /\
      length payload = 164%nat /\
      length (success_reply payload (repeat x61 64)) = 228%nat /\
      sendGroupTokenRequest_parse
        (GroupTokenRequest.init 2 [(lit "bob", 1, lit "tokA"); (lit "carl", 2, lit "tokB")])
        (success_reply payload (repeat x61 64)) = Ok r /\
      GroupTokenResponse.group r
      <> [(lit "bob", 1, lit "tokA"); (lit "carl", 2, lit "tokB")]) /\
  option_map snd
    (sendGroupTokenRequest 5 (fun _ p => Datagram (success_reply p (repeat x61 64)))
       (GroupTokenRequest.init 51 (repeat (lit "bob", 1, repeat 97%N 64) 51)) world0)
  = Some (Raise StructError).
Proof.
  split.
  - eexists. eexists.
    split; [vm_compute; reflexivity|].
    split; [reflexivity|]. split; [reflexivity|].
    split; [vm_compute; reflexivity|].
    vm_compute. discriminate.
  - vm_compute. reflexivity.
Qed.
